(** * nixy: Marathon to nginx synchronisation pipeline

    A shallow embedding of the synchronisation pipeline of nixy
    (fetchApps, syncApps, writeConf, checkConf, reloadNginx, reload)
    together with the Go library functions it relies on
    (regexp matching and splitting, strings.Split, strconv.FormatInt,
    ioutil.TempFile, os.Rename). *)

From Stdlib Require Import ZArith Lia List Ascii String DecimalString.
From stdpp Require Import base option list strings gmap.

(** ** Go strings: bytes, splitting, decimal printing *)

Module GoStrings.

(** [strconv.FormatInt(i, 10)] on an int64. *)
Definition FormatInt (i : Z) : string := NilZero.string_of_int (Z.to_int i).

(** [strings.Split(s, sep)] for a one-byte separator: the pieces between
    all occurrences of [sep]; always at least one piece. *)
Fixpoint Split_from (sep : ascii) (cur s : string) : list string :=
  match s with
  | EmptyString => [cur]
  | String c s' =>
      if Ascii.eqb c sep then cur :: Split_from sep "" s'
      else Split_from sep (cur +:+ String c "") s'
  end.

Definition Split (s : string) (sep : ascii) : list string := Split_from sep "" s.

(** Number of occurrences of a byte. *)
Fixpoint count (sep : ascii) (s : string) : nat :=
  match s with
  | EmptyString => 0
  | String c s' => (if Ascii.eqb c sep then 1 else 0) + count sep s'
  end.



End GoStrings.

(** ** Go regexp: the fragment used by nixy

    Regular expressions as syntax trees, matched with Brzozowski
    derivatives.  Every expression of nixy is anchored with [^] and [$]
    (per alternative), so [MatchString] is a match of the whole text. *)

Module Regexp.

Inductive regex : Type :=
| Void : regex
| Eps : regex
| Class (p : ascii → bool) : regex
| Cat (r1 r2 : regex) : regex
| Or (r1 r2 : regex) : regex
| Star (r : regex) : regex.

Definition Plus (r : regex) : regex := Cat r (Star r).

Definition Byte (c : ascii) : regex := Class (Ascii.eqb c).

Fixpoint Lit (s : string) : regex :=
  match s with
  | EmptyString => Eps
  | String c s' => Cat (Byte c) (Lit s')
  end.

Fixpoint nullable (r : regex) : bool :=
  match r with
  | Void => false
  | Eps => true
  | Class _ => false
  | Cat r1 r2 => nullable r1 && nullable r2
  | Or r1 r2 => nullable r1 || nullable r2
  | Star _ => true
  end.

Fixpoint deriv (c : ascii) (r : regex) : regex :=
  match r with
  | Void => Void
  | Eps => Void
  | Class p => if p c then Eps else Void
  | Cat r1 r2 =>
      if nullable r1 then Or (Cat (deriv c r1) r2) (deriv c r2)
      else Cat (deriv c r1) r2
  | Or r1 r2 => Or (deriv c r1) (deriv c r2)
  | Star r1 => Cat (deriv c r1) (Star r1)
  end.

(** [^r$] against the whole of [s]. *)
Fixpoint MatchString (r : regex) (s : string) : bool :=
  match s with
  | EmptyString => nullable r
  | String c s' => MatchString (deriv c r) s'
  end.

(** The language of an expression. *)
Inductive lang : regex → string → Prop :=
| lang_eps : lang Eps ""
| lang_class p c : p c = true → lang (Class p) (String c "")
| lang_cat r1 r2 s1 s2 : lang r1 s1 → lang r2 s2 → lang (Cat r1 r2) (s1 +:+ s2)
| lang_or_l r1 r2 s : lang r1 s → lang (Or r1 r2) s
| lang_or_r r1 r2 s : lang r2 s → lang (Or r1 r2) s
| lang_star_nil r : lang (Star r) ""
| lang_star_app r s1 s2 : lang r s1 → lang (Star r) s2 → lang (Star r) (s1 +:+ s2).

(** Character classes. *)
Definition between (lo hi c : ascii) : bool :=
  (N_of_ascii lo <=? N_of_ascii c)%N && (N_of_ascii c <=? N_of_ascii hi)%N.

Definition digit (c : ascii) : bool := between "0" "9" c.
Definition lower (c : ascii) : bool := between "a" "z" c.

(** [\s] of Go's syntax: tab, newline, form feed, carriage return, space. *)
Definition space (c : ascii) : bool :=
  Ascii.eqb c "009" || Ascii.eqb c "010" || Ascii.eqb c "012"
  || Ascii.eqb c "013" || Ascii.eqb c " ".

(** [re.Split(s, -1)] for an expression [\s+]-like, given as the class of
    its bytes: the pieces between the maximal runs of matching bytes.
    [in_run] records that the previous byte belonged to a run. *)
Fixpoint Split_runs (p : ascii → bool) (in_run : bool) (cur s : string) : list string :=
  match s with
  | EmptyString => [cur]
  | String c s' =>
      if p c then
        if in_run then Split_runs p true "" s'
        else cur :: Split_runs p true "" s'
      else Split_runs p false (cur +:+ String c "") s'
  end.

End Regexp.

(** ** The data model of nixy.go and marathon.go *)

Record Frontend : Type := mkFrontend {
  Type_ : string;
  Data : list string;
}.

Record App : Type := mkApp {
  Tasks : list (list string);
  Frontends : list Frontend;
  Labels : gmap string string;
  Env : gmap string string;
}.

Record Updates : Type := mkUpdates {
  LastSync : Z;
  LastConfigRendered : Z;
  LastConfigValid : Z;
  LastNginxReload : Z;
}.

Record HealthCheckResult : Type := mkHealthCheckResult { Alive : bool }.

Record MarathonTask : Type := mkMarathonTask {
  AppId : string;
  HealthCheckResults : list HealthCheckResult;
  Host : string;
  TaskId : string;
  Ports : list Z;
  ServicePorts : list Z;
  StagedAt : string;
  StartedAt : string;
  Version : string;
}.

(** An entry of [HealthChecks []interface{}]: only their number is read. *)
Definition HealthCheck : Type := string.

Record MarathonApp : Type := mkMarathonApp {
  Id : string;
  AppLabels : gmap string string;
  AppEnv : gmap string string;
  HealthChecks : list HealthCheck;
}.

Record StatsdConfig : Type := mkStatsdConfig {
  Addr : string;
  Namespace : string;
  SampleRate : Z;
}.

Record Config : Type := mkConfig {
  Xproxy : string;
  Port : string;
  Marathon_ : list string;
  User : string;
  Pass : string;
  Nginx_config : string;
  Nginx_template : string;
  Nginx_cmd : string;
  Statsd : StatsdConfig;
  LastUpdates : Updates;
  Apps : gmap string App;
}.

Record EndpointStatus : Type := mkEndpointStatus {
  Endpoint : string;
  Healthy : bool;
  Message : string;
}.

Module Marathon.
Import Regexp.

(** [frontendExpressions], each between its [^] and [$]. *)
Definition dns (c : ascii) : bool := digit c || lower c || Ascii.eqb c "-".
Definition dotted (c : ascii) : bool := lower c || Ascii.eqb c "." || Ascii.eqb c "-".

Definition names (p : ascii → bool) : regex :=
  Cat (Plus (Class p)) (Star (Cat (Byte ",") (Plus (Class p)))).

Definition expression (p : ascii → bool) (ty : string) : regex :=
  Cat (names p) (Cat (Byte "/") (Lit ty)).

Definition frontendExpressions : list regex :=
  [ expression dns "http";
    expression dns "http-public";
    expression dotted "partner";
    expression dns "shop-dev";
    expression dotted "shop";
    expression digit "tcp" ].

(** [regexp.MustCompile(strings.Join(frontendExpressions, "|"))] *)
Definition frontendRegexp : regex := foldr Or Void frontendExpressions.

(** [regexp.MustCompile("\\s+")], used only through [Split(_, -1)]. *)
Definition spaceRegexp_Split (s : string) : list string :=
  Split_runs space false "" s.

(** [task.Host + ":" + strconv.FormatInt(port, 10)] *)
Definition hostport (task : MarathonTask) (port : Z) : string :=
  Host task +:+ ":" +:+ GoStrings.FormatInt port.

(** The [alive] flag after the loop over [task.HealthCheckResults]. *)
Definition alive_flag (results : list HealthCheckResult) : bool :=
  fold_left (λ alive health, if Bool.eqb (Alive health) false then false else alive)
            results true.

Definition error_frontend (msg : string) : Frontend := mkFrontend "error" [msg].

Definition not_recognized (frontend : string) : list Frontend :=
  [error_frontend ("frontend " +:+ frontend +:+ " not recognized")].

Definition too_many : list Frontend :=
  [error_frontend "more frontends defined than ports exposed"].

(** The loop over the tokens of the label; [None] is a run-time panic
    (an index out of range). *)
Fixpoint parseFrontends (acc : list Frontend) (frontends : list string)
  : option (list Frontend) :=
  match frontends with
  | [] => Some acc
  | frontend :: rest =>
      if MatchString frontendRegexp frontend then
        let frontendDataAndType := GoStrings.Split frontend "/" in
        match frontendDataAndType !! 1%nat, frontendDataAndType !! 0%nat with
        | Some frontendType, Some names =>
            parseFrontends
              (acc ++ [mkFrontend frontendType (GoStrings.Split names ",")]) rest
        | _, _ => None
        end
      else Some (not_recognized frontend)
  end.

(** The frontends of a new app, from the label of the app definition and
    the ports of the task that creates the entry. *)
Definition labelFrontends (app : MarathonApp) (task : MarathonTask)
  : option (list Frontend) :=
  match AppLabels app !! "frontends" with
  | Some frontendsLabel =>
      let frontends := spaceRegexp_Split frontendsLabel in
      if (length frontends <=? length (Ports task))%nat
      then parseFrontends [] frontends
      else Some too_many
  | None => Some []
  end.

(** The [else] branch: the entry created by the first contributing task. *)
Definition newApp (app : MarathonApp) (task : MarathonTask) : option App :=
  fs ← labelFrontends app task;
  Some {| Tasks := map (λ port, [hostport task port]) (Ports task);
          Frontends := fs;
          Labels := AppLabels app;
          Env := AppEnv app |}.

(** The [if a, ok := ...] branch: [a.Tasks[index] = append(a.Tasks[index], ...)]
    for every port of the task; [None] when [index] is out of range. *)
Fixpoint appendPorts (task : MarathonTask) (index : nat) (ports : list Z)
    (slots : list (list string)) : option (list (list string)) :=
  match ports with
  | [] => Some slots
  | port :: rest =>
      match slots !! index with
      | Some slot =>
          appendPorts task (S index) rest (<[index := slot ++ [hostport task port]]> slots)
      | None => None
      end
  end.

(** The body of the inner loop, for one app and one task. *)
Definition joinTask (app : MarathonApp) (apps : gmap string App) (task : MarathonTask)
  : option (gmap string App) :=
  if negb (String.eqb (AppId task) (Id app)) then Some apps
  else if (length (Ports task) =? 0)%nat then Some apps
  else if (0 <? length (HealthChecks app))%nat
          && (length (HealthCheckResults task) =? 0)%nat then Some apps
  else if (0 <? length (HealthChecks app))%nat
          && negb (alive_flag (HealthCheckResults task)) then Some apps
  else match apps !! Id app with
       | Some a =>
           slots ← appendPorts task 0 (Ports task) (Tasks a);
           Some (<[Id app := {| Tasks := slots; Frontends := Frontends a;
                                Labels := Labels a; Env := Env a |}]> apps)
       | None =>
           newapp ← newApp app task;
           Some (<[Id app := newapp]> apps)
       end.

Fixpoint joinTasks (app : MarathonApp) (tasks : list MarathonTask)
    (apps : gmap string App) : option (gmap string App) :=
  match tasks with
  | [] => Some apps
  | task :: rest => apps' ← joinTask app apps task; joinTasks app rest apps'
  end.

Fixpoint joinApps (jsonapps : list MarathonApp) (jsontasks : list MarathonTask)
    (apps : gmap string App) : option (gmap string App) :=
  match jsonapps with
  | [] => Some apps
  | app :: rest => apps' ← joinTasks app jsontasks apps; joinApps rest jsontasks apps'
  end.

(** [syncApps]: the new value of [config.Apps]; [None] when it panics. *)
Definition syncApps (jsontasks : list MarathonTask) (jsonapps : list MarathonApp)
  : option (gmap string App) :=
  joinApps jsonapps jsontasks ∅.

End Marathon.

(** ** The process and its surroundings

    The mutable globals of the process ([config], [health]) and the part of
    the machine it acts on (files, wall clock), followed by what lies
    outside the program: the network, the template engine, the nginx
    binary and the operating system, as the functions the code calls. *)

(** The stages of a reload attempt at which [reload] can return an error. *)
Inductive Phase : Type := Fetch | Render | Validate | Install | Signal.

(** Result of [cmd.Run()]. *)
Inductive RunResult : Type :=
| Exited (status : Z) (stderr : string)
| NotStarted (err : string).

Record Request : Type := mkRequest {
  Method : string;
  URL : string;
  Accept : string;
  BasicAuth : option (string * string);
}.

Inductive Response : Type :=
| TransportError (err : string)
| Body (body : string).

(** What the process does to its surroundings, in order. *)
Inductive Event : Type :=
| EvRequest (req : Request)
| EvCreate (path : string)
| EvExec (cmd : string) (args : list string) (res : RunResult)
| EvRename (src dst : string) (err : option string).

(** [config] and [health.Endpoints] are the globals of nixy.go; [files] maps
    a path to the bytes of the file there; [clock] is what [time.Now()]
    returns; [trace] records the events so far. *)
Record World : Type := mkWorld {
  config : Config;
  health : list EndpointStatus;
  files : gmap string string;
  clock : Z;
  trace : list Event;
}.

(** What [template.Execute] does, given the files that [fileExists] can
    see and the data context: the bytes written, and its error. *)
Definition Template : Type := gmap string string → Config → string * option string.

(** The surroundings: the error of [http.NewRequest] for a URL, the answer
    of [client.Do], the JSON decoders, the parser of text/template, the
    directory of [os.TempDir()] and the random suffixes [ioutil.TempFile]
    tries, the outcome of running a command on the files at hand, the
    error of [os.Rename] for a pair of paths, and the time each phase
    takes. *)
Record Outside : Type := mkOutside {
  newRequestError : string → option string;
  roundTrip : Request → Response;
  decodeTasks : string → string + list MarathonTask;
  decodeApps : string → string + list MarathonApp;
  parseTemplate : string → string + Template;
  tempDir : string;
  tempSuffixes : list string;
  runCmd : string → list string → gmap string string → RunResult;
  renameError : string → string → option string;
  elapsed : Phase → Z;
}.

Definition with_Apps (apps : gmap string App) (c : Config) : Config :=
  {| Xproxy := Xproxy c; Port := Port c; Marathon_ := Marathon_ c; User := User c;
     Pass := Pass c; Nginx_config := Nginx_config c; Nginx_template := Nginx_template c;
     Nginx_cmd := Nginx_cmd c; Statsd := Statsd c; LastUpdates := LastUpdates c;
     Apps := apps |}.

Definition with_LastUpdates (u : Updates) (c : Config) : Config :=
  {| Xproxy := Xproxy c; Port := Port c; Marathon_ := Marathon_ c; User := User c;
     Pass := Pass c; Nginx_config := Nginx_config c; Nginx_template := Nginx_template c;
     Nginx_cmd := Nginx_cmd c; Statsd := Statsd c; LastUpdates := u;
     Apps := Apps c |}.

Definition with_config (f : Config → Config) (w : World) : World :=
  {| config := f (config w); health := health w; files := files w;
     clock := clock w; trace := trace w |}.

Definition with_files (fs : gmap string string) (w : World) : World :=
  {| config := config w; health := health w; files := fs;
     clock := clock w; trace := trace w |}.

(** Time passing while the process waits for an operation of phase [p]. *)
Definition wait (env : Outside) (p : Phase) (w : World) : World :=
  {| config := config w; health := health w; files := files w;
     clock := (clock w + elapsed env p)%Z; trace := trace w |}.

Definition emit (evs : list Event) (w : World) : World :=
  {| config := config w; health := health w; files := files w;
     clock := clock w; trace := trace w ++ evs |}.

(** [config.LastUpdates.X = time.Now()] *)
Definition stamp_LastSync (w : World) : World :=
  let u := LastUpdates (config w) in
  with_config (with_LastUpdates
    {| LastSync := clock w; LastConfigRendered := LastConfigRendered u;
       LastConfigValid := LastConfigValid u; LastNginxReload := LastNginxReload u |}) w.

Definition stamp_LastConfigRendered (w : World) : World :=
  let u := LastUpdates (config w) in
  with_config (with_LastUpdates
    {| LastSync := LastSync u; LastConfigRendered := clock w;
       LastConfigValid := LastConfigValid u; LastNginxReload := LastNginxReload u |}) w.

Definition stamp_LastConfigValid (w : World) : World :=
  let u := LastUpdates (config w) in
  with_config (with_LastUpdates
    {| LastSync := LastSync u; LastConfigRendered := LastConfigRendered u;
       LastConfigValid := clock w; LastNginxReload := LastNginxReload u |}) w.

Definition stamp_LastNginxReload (w : World) : World :=
  let u := LastUpdates (config w) in
  with_config (with_LastUpdates
    {| LastSync := LastSync u; LastConfigRendered := LastConfigRendered u;
       LastConfigValid := LastConfigValid u; LastNginxReload := clock w |}) w.

(** ** fetchApps *)

Module Fetcher.

(** The loop that picks the first healthy endpoint; [""] when none. *)
Fixpoint firstHealthy (endpoints : list EndpointStatus) : string :=
  match endpoints with
  | [] => ""
  | es :: rest => if Bool.eqb (Healthy es) true then Endpoint es else firstHealthy rest
  end.

Definition allDown : string := "all endpoints are down".

(** The body of either goroutine: the requests it issues and the value it
    sends on its channel ([inl err]) or leaves decoded ([inr v]). *)
Definition getJSON {A : Type} (env : Outside) (c : Config) (url : string)
    (decode : string → string + A) : list Event * (string + A) :=
  match newRequestError env url with
  | Some err => ([], inl err)
  | None =>
      let req := {| Method := "GET"; URL := url; Accept := "application/json";
                    BasicAuth := if String.eqb (User c) "" then None
                                 else Some (User c, Pass c) |} in
      match roundTrip env req with
      | TransportError err => ([EvRequest req], inl err)
      | Body b => ([EvRequest req], decode b)
      end
  end.

Definition errorOf {A : Type} (r : string + A) : option string :=
  match r with inl err => Some err | inr _ => None end.

Definition is_request (ev : Event) : Prop := ∃ req, ev = EvRequest req.

(** What the function returns once it holds [appserr] and [taskserr]. *)
Definition verdict (appserr taskserr : option string) : option string :=
  match appserr with
  | Some err => Some err
  | None => match taskserr with
            | Some err => Some err
            | None => None
            end
  end.

(** [fetchApps], with the two sub-requests run to completion one after the
    other (every schedule yields the same values, see [step] below). *)
Definition fetchApps (env : Outside) (w : World)
  : World * (string + list MarathonTask * list MarathonApp) :=
  let endpoint := firstHealthy (health w) in
  if String.eqb endpoint "" then (w, inl allDown)
  else
    let '(evt, rt) := getJSON env (config w) (endpoint +:+ "/v2/tasks") (decodeTasks env) in
    let '(eva, ra) := getJSON env (config w) (endpoint +:+ "/v2/apps") (decodeApps env) in
    let w' := wait env Fetch (emit (evt ++ eva) w) in
    match ra, rt with
    | inl appserr, _ => (w', inl appserr)
    | inr _, inl taskserr => (w', inl taskserr)
    | inr jsonapps, inr jsontasks => (w', inr (jsontasks, jsonapps))
    end.

(** The three threads of one call, after the endpoint has been chosen:
    each goroutine runs, then blocks sending on its unbuffered channel;
    the caller receives from [appschn], then from [taskschn]. *)
Inductive goroutine : Type :=
| Running
| Sending (err : option string)
| Finished.

Inductive caller : Type :=
| RecvApps
| RecvTasks (appserr : option string)
| Returned (err : option string).

Record threads : Type := mkThreads {
  main : caller;
  tasksGo : goroutine;
  appsGo : goroutine;
}.

Definition start : threads :=
  {| main := RecvApps; tasksGo := Running; appsGo := Running |}.

Inductive step (taskserr appserr : option string) : threads → threads → Prop :=
| step_tasks_done m a :
    step taskserr appserr (mkThreads m Running a) (mkThreads m (Sending taskserr) a)
| step_apps_done m t :
    step taskserr appserr (mkThreads m t Running) (mkThreads m t (Sending appserr))
| step_recv_apps t e :
    step taskserr appserr (mkThreads RecvApps t (Sending e))
                          (mkThreads (RecvTasks e) t Finished)
| step_recv_tasks ae e a :
    step taskserr appserr (mkThreads (RecvTasks ae) (Sending e) a)
                          (mkThreads (Returned (verdict ae e)) Finished a).

Inductive reachable (taskserr appserr : option string) : threads → Prop :=
| reach_start : reachable taskserr appserr start
| reach_step s s' :
    reachable taskserr appserr s → step taskserr appserr s s' →
    reachable taskserr appserr s'.

(** Steps left before the caller returns. *)
Definition remaining (s : threads) : nat :=
  (match main s with RecvApps => 2 | RecvTasks _ => 1 | Returned _ => 0 end
   + match tasksGo s with Running => 1 | _ => 0 end
   + match appsGo s with Running => 1 | _ => 0 end)%nat.

End Fetcher.

(** ** writeConf, checkConf, reloadNginx, reload *)

Module Nginx.

(** How an attempt ends: without error, with the error of a phase, or with
    the process brought down by a panic. *)
Inductive Result : Type :=
| Done
| Failed (phase : Phase) (err : string)
| Crashed.

(** [ioutil.TempFile(dir, prefix)]: the first name [dir/prefix<suffix>]
    that does not exist yet; the default directory when [dir] is empty. *)
Fixpoint firstFree (fs : gmap string string) (base : string) (suffixes : list string)
  : option string :=
  match suffixes with
  | [] => None
  | sfx :: rest =>
      match fs !! (base +:+ sfx) with
      | None => Some (base +:+ sfx)
      | Some _ => firstFree fs base rest
      end
  end.

Definition TempFile (env : Outside) (fs : gmap string string) (dir pfx : string)
  : option string :=
  let d := if String.eqb dir "" then tempDir env else dir in
  firstFree fs (d +:+ "/" +:+ pfx) (tempSuffixes env).

(** [fmt.Sprint(err) + ": " + stderr.String()] for a failed [cmd.Run()]. *)
Definition runError (r : RunResult) : option string :=
  match r with
  | Exited 0 _ => None
  | Exited status stderr =>
      Some ("exit status " +:+ GoStrings.FormatInt status +:+ ": " +:+ stderr)
  | NotStarted err => Some (err +:+ ": ")
  end.

Definition checkConf (env : Outside) (path : string) (w : World) : World * option string :=
  let args := ["-c"; path; "-t"] in
  let r := runCmd env (Nginx_cmd (config w)) args (files w) in
  (wait env Validate (emit [EvExec (Nginx_cmd (config w)) args r] w), runError r).

Definition reloadNginx (env : Outside) (w : World) : World * option string :=
  let args := ["-s"; "reload"] in
  let r := runCmd env (Nginx_cmd (config w)) args (files w) in
  (wait env Signal (emit [EvExec (Nginx_cmd (config w)) args r] w), runError r).

(** [os.Rename(src, dst)] *)
Definition Rename (env : Outside) (src dst : string) (w : World) : World * option string :=
  let err := renameError env src dst in
  let w' := wait env Install (emit [EvRename src dst err] w) in
  match err, files w !! src with
  | None, Some content => (with_files (<[dst := content]> (delete src (files w))) w', None)
  | None, None => (w', Some "no such file or directory")
  | Some e, _ => (w', Some e)
  end.

(** The error of a write into a nil [*os.File]. *)
Definition invalidArgument : string := "invalid argument".

(** [writeConf].  The error of [ioutil.TempFile] is overwritten unread:
    when no file could be created [tmpFile] is nil, a template that writes
    anything fails on its first write, and one that writes nothing reaches
    [tmpFile.Name()], which dereferences nil.  Each error is returned
    together with the phase of the statement that returns it. *)
Definition writeConf (env : Outside) (w : World) : World * Result :=
  match files w !! Nginx_template (config w) with
  | None => (wait env Render w, Failed Render "no such file or directory")
  | Some text =>
      match parseTemplate env text with
      | inl err => (wait env Render w, Failed Render err)
      | inr template =>
          let '(output, err) := template (files w) (config w) in
          match TempFile env (files w) "" "nixy" with
          | None =>
              let w1 := wait env Render w in
              match output, err with
              | String _ _, _ => (w1, Failed Render invalidArgument)
              | EmptyString, Some e => (w1, Failed Render e)
              | EmptyString, None => (stamp_LastConfigRendered w1, Crashed)
              end
          | Some tmpFile =>
              let w1 := wait env Render
                          (with_files (<[tmpFile := output]> (files w))
                             (emit [EvCreate tmpFile] w)) in
              match err with
              | Some e => (w1, Failed Render e)
              | None =>
                  let w2 := stamp_LastConfigRendered w1 in
                  let '(w3, err) := checkConf env tmpFile w2 in
                  match err with
                  | Some e => (w3, Failed Validate e)
                  | None =>
                      let '(w4, err) := Rename env tmpFile (Nginx_config (config w3)) w3 in
                      match err with
                      | Some e => (w4, Failed Install e)
                      | None => (w4, Done)
                      end
                  end
              end
          end
      end
  end.

(** [reload]; a panic of [syncApps] ends the process. *)
Definition reload (env : Outside) (w : World) : World * Result :=
  let '(w1, r) := Fetcher.fetchApps env w in
  match r with
  | inl err => (w1, Failed Fetch err)
  | inr (jsontasks, jsonapps) =>
      match Marathon.syncApps jsontasks jsonapps with
      | None => (w1, Crashed)
      | Some apps =>
          let w2 := stamp_LastSync (with_config (with_Apps apps) w1) in
          let '(w3, r) := writeConf env w2 in
          match r with
          | Failed phase err => (w3, Failed phase err)
          | Crashed => (w3, Crashed)
          | Done =>
              let w4 := stamp_LastConfigValid w3 in
              let '(w5, err) := reloadNginx env w4 in
              match err with
              | Some e => (w5, Failed Signal e)
              | None => (stamp_LastNginxReload w5, Done)
              end
          end
      end
  end.

(** The stamps of [w] with [LastConfigRendered] taken after the render. *)
Definition rendered_at (env : Outside) (w : World) : Config :=
  let u := LastUpdates (config w) in
  with_LastUpdates
    {| LastSync := LastSync u;
       LastConfigRendered := (clock w + elapsed env Render)%Z;
       LastConfigValid := LastConfigValid u;
       LastNginxReload := LastNginxReload u |} (config w).

End Nginx.

(** ** What syncApps is expected to compute

    The vocabulary of the properties proved below: which tasks pass the
    gate of an app, the (app, task) pairs in the order the two loops visit
    them, and the slots they are expected to fill. *)

Module Materialized.
Import Marathon.

(** A task counts for an app: same id, at least one port and, when the app
    declares health checks, at least one reported result and all alive. *)
Definition contributes (app : MarathonApp) (task : MarathonTask) : Prop :=
  AppId task = Id app
  ∧ 0 < length (Ports task)
  ∧ (0 < length (HealthChecks app) →
     0 < length (HealthCheckResults task)
     ∧ Forall (λ h, Alive h = true) (HealthCheckResults task)).

#[export] Instance contributes_dec app task : Decision (contributes app task).
Proof. unfold contributes. apply _. Defined.

(** The iterations of the nested loops, in order. *)
Definition pairs (jsonapps : list MarathonApp) (jsontasks : list MarathonTask)
  : list (MarathonApp * MarathonTask) :=
  flat_map (λ app, map (pair app) jsontasks) jsonapps.

(** The iterations that reach the map entry [id]. *)
Definition joined (id : string) (ps : list (MarathonApp * MarathonTask))
  : list (MarathonApp * MarathonTask) :=
  filter (λ p, Id p.1 = id ∧ contributes p.1 p.2) ps.

(** The host:port of a task for the port index, if it has that port. *)
Definition entryAt (index : nat) (task : MarathonTask) : option string :=
  hostport task <$> Ports task !! index.

(** [n] slots, slot [i] listing the [i]-th port of every task that has one. *)
Definition slotsOf (n : nat) (tasks : list MarathonTask) : list (list string) :=
  map (λ index, omap (entryAt index) tasks) (seq 0 n).

(** The map entry expected for [id] after the iterations [ps]. *)
Definition expected (id : string) (ps : list (MarathonApp * MarathonTask))
  : option App :=
  match joined id ps with
  | [] => None
  | (app0, task0) :: _ =>
      fs ← labelFrontends app0 task0;
      Some {| Tasks := slotsOf (length (Ports task0)) (joined id ps).*2;
              Frontends := fs;
              Labels := AppLabels app0;
              Env := AppEnv app0 |}
  end.

(** No later contributor of [id] has more ports than the first one. *)
Definition fits (id : string) (ps : list (MarathonApp * MarathonTask)) : Prop :=
  match joined id ps with
  | [] => True
  | (_, task0) :: rest =>
      Forall (λ p, length (Ports p.2) ≤ length (Ports task0)) rest
  end.

(** Every contributor of [id] has as many ports as the first one. *)
Definition uniform (id : string) (ps : list (MarathonApp * MarathonTask)) : Prop :=
  match joined id ps with
  | [] => True
  | (_, task0) :: rest =>
      Forall (λ p, length (Ports p.2) = length (Ports task0)) rest
  end.

(** The loops of [syncApps] as one pass over [pairs]. *)
Fixpoint joinPairs (ps : list (MarathonApp * MarathonTask)) (apps : gmap string App)
  : option (gmap string App) :=
  match ps with
  | [] => Some apps
  | (app, task) :: rest => apps' ← joinTask app apps task; joinPairs rest apps'
  end.

(** The result of appending the ports of [task] from slot [k] on. *)
Definition appended (task : MarathonTask) (k : nat) (ports : list Z)
    (slots : list (list string)) : list (list string) :=
  imap (λ i slot,
          match (if decide (k ≤ i) then ports !! (i - k) else None) with
          | Some port => slot ++ [hostport task port]
          | None => slot
          end) slots.

(** What one pass over [ps] has produced: it panics exactly when some
    entry receives a task with more ports than its first one, and
    otherwise every entry is the expected one. *)
Definition outcome (ps : list (MarathonApp * MarathonTask)) : Prop :=
  match joinPairs ps ∅ with
  | None => ∃ id, ¬ fits id ps
  | Some apps => (∀ id, fits id ps) ∧ ∀ id, apps !! id = expected id ps
  end.

End Materialized.

(** ** Observing the stamps *)

Module Stamps.

(** The four stamps were taken from the clock, in the past. *)
Definition in_past (w : World) : Prop :=
  let u := LastUpdates (config w) in
  (LastSync u ≤ clock w ∧ LastConfigRendered u ≤ clock w
   ∧ LastConfigValid u ≤ clock w ∧ LastNginxReload u ≤ clock w)%Z.

Definition advanced (stamp : Updates → Z) (w w' : World) : Prop :=
  (stamp (LastUpdates (config w)) < stamp (LastUpdates (config w')))%Z.

Definition kept (stamp : Updates → Z) (w w' : World) : Prop :=
  stamp (LastUpdates (config w')) = stamp (LastUpdates (config w)).

End Stamps.

(** ** Scenarios *)

Module Scenarios.
Import Marathon.

(** A task and an app definition, given the fields that [syncApps] reads. *)
Definition task_of (appId host : string) (ports : list Z) (alive : list bool)
  : MarathonTask :=
  {| AppId := appId; HealthCheckResults := map mkHealthCheckResult alive;
     Host := host; TaskId := ""; Ports := ports; ServicePorts := [];
     StagedAt := ""; StartedAt := ""; Version := "" |}.

Definition app_of (id : string) (frontends : option string) (checks : nat)
  : MarathonApp :=
  {| Id := id;
     AppLabels := match frontends with
                  | Some l => {[ "frontends" := l ]}
                  | None => ∅
                  end;
     AppEnv := ∅;
     HealthChecks := replicate checks "{}" |}.

(** One app [/web], two tasks with one port each, no health checks. *)
Definition happy_tasks : list MarathonTask :=
  [task_of "/web" "hostA" [31001%Z] []; task_of "/web" "hostB" [31002%Z] []].
Definition happy_apps : list MarathonApp :=
  [app_of "/web" (Some "example.com/http") 0].

(** One health check declared; the second task reports a failure. *)
Definition gated_tasks : list MarathonTask :=
  [task_of "/web" "hostA" [31001%Z] [true]; task_of "/web" "hostB" [31002%Z] [false]].
Definition gated_apps : list MarathonApp := [app_of "/web" None 1].

(** The second task exposes fewer ports than the first. *)
Definition ragged_tasks : list MarathonTask :=
  [task_of "/web" "hostA" [31001%Z; 31002%Z] []; task_of "/web" "hostB" [31003%Z] []].
Definition ragged_apps : list MarathonApp := [app_of "/web" None 0].

(** The second task exposes more ports than the first. *)
Definition overflow_tasks : list MarathonTask :=
  [task_of "/web" "hostA" [31001%Z] []; task_of "/web" "hostB" [31002%Z; 31003%Z] []].
Definition overflow_apps : list MarathonApp := [app_of "/web" None 0].

(** Two frontends for one port. *)
Definition crowded_tasks : list MarathonTask :=
  [task_of "/web" "hostA" [31001%Z] []; task_of "/web" "hostB" [31002%Z] []].
Definition crowded_apps : list MarathonApp :=
  [app_of "/web" (Some "a.com/http b.com/http") 0].

(** Two tokens for two ports, neither of them recognised. *)
Definition malformed_tasks : list MarathonTask :=
  [task_of "/web" "hostA" [31001%Z; 31002%Z] []].
Definition malformed_apps : list MarathonApp :=
  [app_of "/web" (Some "GOOD.com/http bogus") 0].

(** Two tokens for two ports, the second one not recognised. *)
Definition halfgood_tasks : list MarathonTask :=
  [task_of "/web" "hostA" [31001%Z; 31002%Z] []].
Definition halfgood_apps : list MarathonApp :=
  [app_of "/web" (Some "good-com/http bogus") 0].

(** A process with one healthy endpoint, a template and a configuration
    file in place. *)
Definition base_config : Config :=
  {| Xproxy := ""; Port := "6000"; Marathon_ := ["http://marathon:8080"];
     User := ""; Pass := "";
     Nginx_config := "/etc/nginx/nginx.conf";
     Nginx_template := "/etc/nixy/nginx.tmpl";
     Nginx_cmd := "nginx";
     Statsd := mkStatsdConfig "" "" 0;
     LastUpdates := mkUpdates 0 0 0 0;
     Apps := ∅ |}.

Definition base_world : World :=
  {| config := base_config;
     health := [mkEndpointStatus "http://marathon:8080" true "OK"];
     files := <["/etc/nginx/nginx.conf" := "old"]> {[ "/etc/nixy/nginx.tmpl" := "template" ]};
     clock := 100;
     trace := [] |}.

(** Surroundings in which Marathon answers, the template renders and
    [nginx -t] accepts; the rename fails with [rename] if given, and
    [nginx -s reload] exits with [status]. *)
Definition surroundings (rename : option string) (status : Z) : Outside :=
  {| newRequestError := λ _, None;
     roundTrip := λ _, Body "{}";
     decodeTasks := λ _, inr happy_tasks;
     decodeApps := λ _, inr happy_apps;
     parseTemplate := λ _, inr (λ _ _, ("rendered", None));
     tempDir := "/tmp";
     tempSuffixes := ["042"];
     runCmd := λ _ args _,
       if decide (args = ["-s"; "reload"]) then Exited status "" else Exited 0 "";
     renameError := λ _ _, rename;
     elapsed := λ _, 1%Z |}.

(** Surroundings in which no request gets through. *)
Definition unreachable : Outside :=
  {| newRequestError := λ _, None;
     roundTrip := λ req, TransportError ("no route to " +:+ URL req);
     decodeTasks := λ _, inr [];
     decodeApps := λ _, inr [];
     parseTemplate := λ _, inr (λ _ _, ("rendered", None));
     tempDir := "/tmp";
     tempSuffixes := ["042"];
     runCmd := λ _ _ _, Exited 0 "";
     renameError := λ _ _, None;
     elapsed := λ _, 1%Z |}.

End Scenarios.

(** ** The statements under test

    The sentences of the specification that the code is checked against,
    each as a proposition about the definitions above. *)

Module Claimed.
Import Regexp Marathon Materialized Fetcher Nginx Stamps Scenarios.

(** The second half of C1: whatever phase fails, the file at
    [nginx_config] has its contents of before the attempt. *)
Definition untouched_on_failure : Prop :=
  ∀ env w w' phase e c,
    files w !! Nginx_config (config w) = Some c →
    reload env w = (w', Failed phase e) →
    files w' !! Nginx_config (config w) = Some c.

(** The claim of C2 for a failed rename: validation completed before it,
    so [LastConfigValid] is advanced. *)
Definition valid_stamped_before_install : Prop :=
  ∀ env w w' e,
    (∀ p, 0 < elapsed env p)%Z → in_past w →
    reload env w = (w', Failed Install e) →
    advanced LastConfigValid w w'.

(** The claim of C4 for one input: in every entry all slots have one
    common length, at least 1, and there are as many slots as ports of
    each contributing task. *)
Definition rectangular (jsontasks : list MarathonTask) (jsonapps : list MarathonApp)
  : Prop :=
  ∀ apps id a,
    syncApps jsontasks jsonapps = Some apps → apps !! id = Some a →
    (∃ n, 0 < n ∧ Forall (λ slot, length slot = n) (Tasks a))
    ∧ Forall (λ p, length (Tasks a) = length (Ports p.2))
             (joined id (pairs jsonapps jsontasks)).

(** The claim of C5: the map has the single entry [/web], with one slot
    holding both tasks and the frontend [http] for [example.com]. *)
Definition happy_claim : Prop :=
  ∃ labels env,
    syncApps happy_tasks happy_apps
    = Some {[ "/web" := mkApp [["hostA:31001"; "hostB:31002"]]
                            [mkFrontend "http" ["example.com"]] labels env ]}.

(** The second sentence of C7: whenever the label [GOOD.com/http bogus]
    is within the port budget, the frontend list is the error for the
    token [bogus]. *)
Definition bogus_claim : Prop :=
  ∀ jsontasks jsonapps apps id a,
    syncApps jsontasks jsonapps = Some apps → apps !! id = Some a →
    Labels a !! "frontends" = Some "GOOD.com/http bogus" →
    length (spaceRegexp_Split "GOOD.com/http bogus") ≤ length (Tasks a) →
    Frontends a = [mkFrontend "error" ["frontend bogus not recognized"]].


(** The claim of C9 on precedence: when both sub-requests fail, the error
    returned is the one of the tasks request. *)
Definition tasks_error_preferred : Prop :=
  ∀ env w evt eva et ea,
    firstHealthy (health w) ≠ "" →
    getJSON env (config w) (firstHealthy (health w) +:+ "/v2/tasks") (decodeTasks env)
      = (evt, inl et) →
    getJSON env (config w) (firstHealthy (health w) +:+ "/v2/apps") (decodeApps env)
      = (eva, inl ea) →
    (fetchApps env w).2 = inl et.

(** The first sentence of C10 read as a condition: whenever [syncApps]
    returns, every contributing task of every app exposes exactly as many
    ports as the first one. *)
Definition returns_only_if_uniform : Prop :=
  ∀ jsontasks jsonapps,
    is_Some (syncApps jsontasks jsonapps) →
    ∀ id, uniform id (pairs jsonapps jsontasks).

End Claimed.

(** ** The rest of nixy.go and marathon.go

    The template helpers, the health bookkeeping, the reload queue with its
    producers and its consumer, and the admin handlers. *)

Module Helpers.

(** [strings.Join(elems, sep)] *)
Fixpoint Join (elems : list string) (sep : string) : string :=
  match elems with
  | [] => ""
  | [x] => x
  | x :: rest => x +:+ sep +:+ Join rest sep
  end.

(** [strings.HasPrefix(s, prefix)] *)
Definition HasPrefix (s pfx : string) : bool := String.prefix pfx s.

(** [splitStr], bound into the template as [splitStr]. *)
Definition splitStr (str : string) : list string := GoStrings.Split str " ".

(** [fileExists]: [os.Stat] succeeds. *)
Definition fileExists (fs : gmap string string) (fileName : string) : bool :=
  match fs !! fileName with
  | Some _ => true
  | None => false
  end.

(** All bytes of a text satisfy a test. *)
Fixpoint allBytes (p : ascii → bool) (s : string) : bool :=
  match s with
  | EmptyString => true
  | String c s' => p c && allBytes p s'
  end.

End Helpers.

Module Health.

Record Status : Type := mkStatus {
  StatusHealthy : bool;
  StatusMessage : string;
}.

(** The fields [Config] and [Template] of the global [health]; its field
    [Endpoints] is [health] of the world. *)
Record Checks : Type := mkChecks {
  ConfigStatus : Status;
  TemplateStatus : Status;
}.

(** [newHealth]: one entry per configured endpoint, marked healthy. *)
Fixpoint newHealth_from (h : list EndpointStatus) (marathon : list string)
  : list EndpointStatus :=
  match marathon with
  | [] => h
  | ep :: rest =>
      newHealth_from (h ++ [{| Endpoint := ep; Healthy := true; Message := "OK" |}]) rest
  end.

Definition newHealth (c : Config) : list EndpointStatus :=
  newHealth_from [] (Marathon_ c).

(** What a probe of [/ping] comes back with. *)
Inductive PingOutcome : Type :=
| PingFailed (err : string)
| PingAnswered (code : Z) (status : string).

Record Prober : Type := mkProber {
  pingRequestError : string → option string;
  ping : Request → PingOutcome;
}.

(** The body of the loop of [endpointHealth] for one endpoint: the new
    values of [health.Endpoints[i]]. *)
Definition probeEndpoint (p : Prober) (c : Config) (es : EndpointStatus)
  : EndpointStatus :=
  match pingRequestError p (Endpoint es +:+ "/ping") with
  | Some err => {| Endpoint := Endpoint es; Healthy := false; Message := err |}
  | None =>
      let req := {| Method := "GET"; URL := Endpoint es +:+ "/ping"; Accept := "";
                    BasicAuth := if String.eqb (User c) "" then None
                                 else Some (User c, Pass c) |} in
      match ping p req with
      | PingFailed err => {| Endpoint := Endpoint es; Healthy := false; Message := err |}
      | PingAnswered code status =>
          if negb (code =? 200)%Z
          then {| Endpoint := Endpoint es; Healthy := false; Message := status |}
          else {| Endpoint := Endpoint es; Healthy := true; Message := "OK" |}
      end
  end.

(** One tick of [endpointHealth]. *)
Fixpoint endpointHealthTick (p : Prober) (c : Config) (endpoints : list EndpointStatus)
  : list EndpointStatus :=
  match endpoints with
  | [] => []
  | es :: rest => probeEndpoint p c es :: endpointHealthTick p c rest
  end.

(** The ticks of a run, each with the prober of its moment. *)
Fixpoint endpointHealthRun (ps : list Prober) (c : Config) (endpoints : list EndpointStatus)
  : list EndpointStatus :=
  match ps with
  | [] => endpoints
  | p :: rest => endpointHealthRun rest c (endpointHealthTick p c endpoints)
  end.

(** The request for an endpoint could be made and was answered with
    status 200. *)
Definition answers200 (p : Prober) (c : Config) (es : EndpointStatus) : Prop :=
  pingRequestError p (Endpoint es +:+ "/ping") = None
  ∧ ∃ status,
      ping p {| Method := "GET"; URL := Endpoint es +:+ "/ping"; Accept := "";
                BasicAuth := if String.eqb (User c) "" then None
                             else Some (User c, Pass c) |}
      = PingAnswered 200 status.

#[export] Instance answers200_dec p c es : Decision (answers200 p c es).
Proof.
  unfold answers200.
  destruct (pingRequestError p (Endpoint es +:+ "/ping")); [right; by intros [? _]|].
  destruct (ping p _) as [err|code status].
  - right. by intros [_ [? ?]].
  - destruct (decide (code = 200%Z)) as [->|Hne].
    + left. split; [done | by eexists].
    + right. intros [_ [? [= ? ?]]]. done.
Defined.

End Health.

Module Queue.

(** [eventqueue = make(chan bool, 2)] *)
Definition capacity : nat := 2.

(** [select { case eventqueue <- true: ... default: ... }] while no
    receiver waits: the buffer afterwards, and whether the value was
    accepted. *)
Definition offer (q : list bool) : list bool * bool :=
  if (length q <? capacity)%nat then (q ++ [true], true) else (q, false).

(** [<-eventqueue]; [None] while it blocks. *)
Definition take (q : list bool) : option (bool * list bool) :=
  match q with
  | [] => None
  | v :: rest => Some (v, rest)
  end.

(** The read loop of [eventStream] over the lines read before the first
    error: the queue afterwards, and the number of [queue is full]
    warnings. *)
Fixpoint readLoop (lines : list string) (q : list bool) (warnings : nat)
  : list bool * nat :=
  match lines with
  | [] => (q, warnings)
  | line :: rest =>
      if negb (Helpers.HasPrefix line "event: ") then readLoop rest q warnings
      else
        let '(q', accepted) := offer q in
        readLoop rest q' (if accepted then warnings else S warnings)
  end.

Definition eventLines (lines : list string) : nat :=
  length (filter (λ line, Helpers.HasPrefix line "event: " = true) lines).

(** What producers and the consumer do to the queue, in some order. *)
Inductive op : Type := Offer | Take.

Fixpoint run (ops : list op) (q : list bool) : list bool :=
  match ops with
  | [] => q
  | Offer :: rest => run rest (offer q).1
  | Take :: rest =>
      match take q with
      | Some (_, q') => run rest q'
      | None => run rest q
      end
  end.

End Queue.

(** ** The queue with its receiver

    [eventqueue] has one receiver, the worker, and two senders, the
    subscriber and the reload handler.  A send finds the worker either
    parked in [<-eventqueue] or away from it (waiting for its ticker, or
    inside [reload]); [Queue] describes the buffer in the second case. *)

Module Channel.
Import Helpers Queue.

(** The tokens in the buffer, and whether the worker is parked in
    [<-eventqueue]. *)
Record chan : Type := mkChan {
  buffer : list bool;
  parked : bool;
}.

(** What became of a value sent. *)
Inductive sent : Type :=
| Handed     (* taken by the parked receiver, past the buffer *)
| Buffered
| Dropped.   (* the [default] case ran *)

(** [select { case eventqueue <- true: ... default: ... }]: a parked
    receiver is handed the value and wakes up; otherwise the value goes to
    the buffer if there is room, and the [default] case runs if not. *)
Definition send (c : chan) : chan * sent :=
  if parked c then ({| buffer := buffer c; parked := false |}, Handed)
  else
    let '(q, accepted) := offer (buffer c) in
    ({| buffer := q; parked := false |}, if accepted then Buffered else Dropped).

(** [<-eventqueue] in the worker: the oldest token of the buffer; with an
    empty buffer the worker parks. *)
Definition recv (c : chan) : chan * option bool :=
  match take (buffer c) with
  | Some (v, rest) => ({| buffer := rest; parked := false |}, Some v)
  | None => ({| buffer := buffer c; parked := true |}, None)
  end.

(** The run time keeps a receiver parked only on an empty buffer. *)
Definition wf (c : chan) : Prop :=
  length (buffer c) ≤ capacity ∧ (parked c = true → buffer c = []).

(** The sends that can still succeed without a receive in between. *)
Definition room (c : chan) : nat :=
  (capacity - length (buffer c)) + (if parked c then 1 else 0).

(** The queue, the tokens the worker has received (each starts one call of
    [reload]), the [queue is full] warnings of the subscriber, and the
    [queue is full] answers of the reload handler. *)
Record Process : Type := mkProcess {
  queue : chan;
  started : nat;
  warned : nat;
  refused : nat;
}.

(** What the three goroutines do to the queue: the subscriber reads a line,
    the reload handler is called, the worker comes to [<-eventqueue]. *)
Inductive action : Type :=
| Line (line : string)
| Call
| Arrive.

Definition act (a : action) (s : Process) : Process :=
  match a with
  | Line line =>
      if negb (HasPrefix line "event: ") then s
      else
        let '(c, outcome) := send (queue s) in
        match outcome with
        | Handed =>
            {| queue := c; started := S (started s);
               warned := warned s; refused := refused s |}
        | Buffered =>
            {| queue := c; started := started s;
               warned := warned s; refused := refused s |}
        | Dropped =>
            {| queue := c; started := started s;
               warned := S (warned s); refused := refused s |}
        end
  | Call =>
      let '(c, outcome) := send (queue s) in
      match outcome with
      | Handed =>
          {| queue := c; started := S (started s);
             warned := warned s; refused := refused s |}
      | Buffered =>
          {| queue := c; started := started s;
             warned := warned s; refused := refused s |}
      | Dropped =>
          {| queue := c; started := started s;
             warned := warned s; refused := S (refused s) |}
      end
  | Arrive =>
      if parked (queue s) then s
      else
        let '(c, v) := recv (queue s) in
        match v with
        | Some _ =>
            {| queue := c; started := S (started s);
               warned := warned s; refused := refused s |}
        | None =>
            {| queue := c; started := started s;
               warned := warned s; refused := refused s |}
        end
  end.

Fixpoint exec (acts : list action) (s : Process) : Process :=
  match acts with
  | [] => s
  | a :: rest => exec rest (act a s)
  end.

(** The sends of a schedule, and the arrivals of the worker. *)
Definition is_send (a : action) : bool :=
  match a with
  | Line line => HasPrefix line "event: "
  | Call => true
  | Arrive => false
  end.

Definition is_arrival (a : action) : bool :=
  match a with
  | Arrive => true
  | _ => false
  end.

Fixpoint sends (acts : list action) : nat :=
  match acts with
  | [] => 0
  | a :: rest => (if is_send a then 1 else 0) + sends rest
  end.

Fixpoint arrivals (acts : list action) : nat :=
  match acts with
  | [] => 0
  | a :: rest => (if is_arrival a then 1 else 0) + arrivals rest
  end.

(** The worker parked on the empty queue, nothing counted yet. *)
Definition idle : Process :=
  {| queue := {| buffer := []; parked := true |};
     started := 0; warned := 0; refused := 0 |}.

(** Four lines of the event stream, three of them events. *)
Definition burst : list action :=
  [Line "event: a"; Line ": keepalive"; Line "event: b"; Line "event: c"].

End Channel.

Module Admin.
Import Health Queue Channel.

(** An [http.ResponseWriter]: the status once the header is written, and
    the body so far. *)
Record ResponseWriter : Type := mkResponseWriter {
  wroteHeader : option Z;
  written : string;
}.

Definition fresh : ResponseWriter := {| wroteHeader := None; written := "" |}.

(** [w.WriteHeader(code)]: only the first call counts. *)
Definition WriteHeader (code : Z) (rw : ResponseWriter) : ResponseWriter :=
  match wroteHeader rw with
  | Some _ => rw
  | None => {| wroteHeader := Some code; written := written rw |}
  end.

(** [w.Write(b)]: writes the header with status 200 if none was written. *)
Definition Write (b : string) (rw : ResponseWriter) : ResponseWriter :=
  let rw' := WriteHeader 200 rw in
  {| wroteHeader := wroteHeader rw'; written := written rw' +:+ b |}.

(** [fmt.Fprintln(w, s)] *)
Definition Fprintln (s : string) (rw : ResponseWriter) : ResponseWriter :=
  Write (s +:+ String "010" "") rw.

(** [nixy_reload] *)
Definition nixy_reload (c : chan) (rw : ResponseWriter) : chan * ResponseWriter :=
  let '(c', outcome) := send c in
  match outcome with
  | Handed | Buffered => (c', Fprintln "queued" (WriteHeader 202 rw))
  | Dropped => (c', Fprintln "queue is full" (WriteHeader 202 rw))
  end.

(** [checkTmpl]: the template parsed and executed into [ioutil.Discard]. *)
Definition checkTmpl (env : Outside) (w : World) : option string :=
  match files w !! Nginx_template (config w) with
  | None => Some "no such file or directory"
  | Some text =>
      match parseTemplate env text with
      | inl err => Some err
      | inr t => (t (files w) (config w)).2
      end
  end.

(** The loop of [nixy_health] over [health.Endpoints]. *)
Fixpoint anyUnhealthy (endpoints : list EndpointStatus) : bool :=
  match endpoints with
  | [] => false
  | endpoint :: rest => if negb (Healthy endpoint) then true else anyUnhealthy rest
  end.

(** [nixy_health]; [marshal] stands for [json.MarshalIndent]. *)
Definition nixy_health (env : Outside) (marshal : Checks → list EndpointStatus → string)
    (w : World) (h : Checks) (rw : ResponseWriter) : World * Checks * ResponseWriter :=
  let '(h1, rw1) :=
    match checkTmpl env w with
    | Some err =>
        ({| ConfigStatus := ConfigStatus h; TemplateStatus := mkStatus false err |},
         WriteHeader 500 rw)
    | None =>
        ({| ConfigStatus := ConfigStatus h; TemplateStatus := mkStatus true "OK" |}, rw)
    end in
  let '(w2, err) := Nginx.checkConf env (Nginx_config (config w)) w in
  let '(h2, rw2) :=
    match err with
    | Some e =>
        ({| ConfigStatus := mkStatus false e; TemplateStatus := TemplateStatus h1 |},
         WriteHeader 500 rw1)
    | None =>
        ({| ConfigStatus := mkStatus true "OK"; TemplateStatus := TemplateStatus h1 |}, rw1)
    end in
  let rw3 := if anyUnhealthy (health w2) then WriteHeader 500 rw2 else rw2 in
  (w2, h2, Write (marshal h2 (health w2)) rw3).

End Admin.

Module Worker.
Import Queue Nginx.

(** The counters and timings sent after an attempt. *)
Definition metrics (r : Result) : list string :=
  match r with
  | Done => ["reload.success"; "reload.time"]
  | Failed _ _ => ["reload.failed"]
  | Crashed => []
  end.

(** One round of [eventWorker] once the ticker has fired: [None] while the
    receive from the queue blocks. *)
Definition eventWorkerTick (env : Outside) (q : list bool) (w : World)
  : option (list bool * World * Result * list string) :=
  match take q with
  | None => None
  | Some (_, q') =>
      let '(w', r) := reload env w in
      Some (q', w', r, metrics r)
  end.

(** The rounds of the worker while no producer runs: the results of the
    attempts made before it blocks, the process dies, or [rounds] runs out. *)
Fixpoint eventWorkerRun (rounds : nat) (env : Outside) (q : list bool) (w : World)
  : list Result :=
  match rounds with
  | O => []
  | S n =>
      match eventWorkerTick env q w with
      | None => []
      | Some (q', w', r, _) =>
          match r with
          | Crashed => [r]
          | _ => r :: eventWorkerRun n env q' w'
          end
      end
  end.

End Worker.

(** ** The frontend grammar, as a grammar *)

Module Grammar.
Import Regexp Marathon Helpers.

(** The name alphabet and the type of each of the six expressions. *)
Definition kinds : list ((ascii → bool) * string) :=
  [ (dns, "http"); (dns, "http-public"); (dotted, "partner");
    (dns, "shop-dev"); (dotted, "shop"); (digit, "tcp") ].

(** A name: at least one byte, all of the alphabet. *)
Definition name_of (p : ascii → bool) (n : string) : Prop :=
  n ≠ "" ∧ allBytes p n = true.

(** A token [name(,name)*/type] of the kind [(p, ty)]. *)
Definition token_of (p : ascii → bool) (ty : string) (ns : list string) (f : string)
  : Prop :=
  ns ≠ [] ∧ Forall (name_of p) ns ∧ f = Join ns "," +:+ "/" +:+ ty.

Definition well_formed (f : string) : Prop :=
  ∃ p ty ns, (p, ty) ∈ kinds ∧ token_of p ty ns f.

(** The text [,n1,n2...] that follows the first name. *)
Fixpoint tails (ns : list string) : string :=
  match ns with
  | [] => ""
  | n :: rest => "," +:+ n +:+ tails rest
  end.

(** A frontend that prints back to the token it was parsed from. *)
Definition prints_as (f : string) (fr : Frontend) : Prop :=
  ∃ p, (p, Type_ fr) ∈ kinds ∧ token_of p (Type_ fr) (Data fr) f.

(** The frontend list of a map entry is empty (no label), or one frontend
    per token of the label, each printing back to its token (all tokens
    recognised, no more of them than slots), or a single frontend of type
    [error]. *)
Definition all_or_nothing (a : App) : Prop :=
  match Labels a !! "frontends" with
  | None => Frontends a = []
  | Some label =>
      let tokens := spaceRegexp_Split label in
      (length tokens ≤ length (Tasks a)
       ∧ Forall (λ f, MatchString frontendRegexp f = true) tokens
       ∧ Forall2 prints_as tokens (Frontends a))
      ∨ ((length (Tasks a) < length tokens
          ∨ ¬ Forall (λ f, MatchString frontendRegexp f = true) tokens)
         ∧ ∃ msg, Frontends a = [mkFrontend "error" [msg]])
  end.

End Grammar.

(** * Properties *)

(** ** Regular expressions *)

Module RegexpFacts.
Import Regexp.

Lemma nullable_lang r : nullable r = true → lang r "".
Proof.
  induction r as [| | p | r1 IH1 r2 IH2 | r1 IH1 r2 IH2 | r IH]; simpl; intros Hn;
    try discriminate.
  - constructor.
  - apply andb_true_iff in Hn as [H1 H2].
    change "" with ("" +:+ ""). constructor; auto.
  - apply orb_true_iff in Hn as [H|H]; [apply lang_or_l | apply lang_or_r]; auto.
  - constructor.
Qed.

Lemma deriv_lang c r : ∀ s, lang (deriv c r) s → lang r (String c s).
Proof.
  induction r as [| | p | r1 IH1 r2 IH2 | r1 IH1 r2 IH2 | r IH]; simpl; intros s H.
  - inversion H.
  - inversion H.
  - destruct (p c) eqn:Hp; inversion H; subst. by constructor.
  - destruct (nullable r1) eqn:Hn.
    + inversion H as [| | | ? ? ? H1 | ? ? ? H1 | |]; subst.
      * inversion H1; subst.
        change (String c (s1 +:+ s2)) with (String c s1 +:+ s2).
        constructor; auto.
      * change (String c s) with ("" +:+ String c s).
        constructor; auto using nullable_lang.
    + inversion H; subst.
      change (String c (s1 +:+ s2)) with (String c s1 +:+ s2).
      constructor; auto.
  - inversion H; subst; [apply lang_or_l | apply lang_or_r]; auto.
  - inversion H; subst.
    change (String c (s1 +:+ s2)) with (String c s1 +:+ s2).
    constructor; auto.
Qed.

(** Soundness of the matcher. *)
Lemma MatchString_lang s : ∀ r, MatchString r s = true → lang r s.
Proof.
  induction s as [|c s IH]; simpl; intros r H.
  - by apply nullable_lang.
  - by apply deriv_lang, IH.
Qed.

Lemma lang_Byte c s : lang (Byte c) s → s = String c "".
Proof.
  unfold Byte. inversion 1 as [|? c' Hc| | | | |]; subst.
  apply Ascii.eqb_eq in Hc. by subst.
Qed.

End RegexpFacts.

(** ** Splitting *)

Module GoStringsFacts.
Import GoStrings.

Lemma Split_from_length sep s : ∀ cur,
  length (Split_from sep cur s) = S (count sep s).
Proof.
  induction s as [|c s IH]; simpl; intros cur; [done|].
  destruct (Ascii.eqb c sep); simpl; by rewrite IH.
Qed.

Lemma Split_length s sep : length (Split s sep) = S (count sep s).
Proof. apply Split_from_length. Qed.

Lemma count_app sep a b : count sep (a +:+ b) = count sep a + count sep b.
Proof. induction a as [|c a IH]; simpl; [done|]. rewrite IH. lia. Qed.

Lemma count_separator sep a b : 0 < count sep (a +:+ String sep b).
Proof. rewrite count_app. simpl. rewrite Ascii.eqb_refl. lia. Qed.

(** A text that contains the separator splits into two pieces at least. *)
Lemma Split_two sep a b :
  ∃ x y rest, Split (a +:+ String sep b) sep = x :: y :: rest.
Proof.
  pose proof (Split_length (a +:+ String sep b) sep) as Hlen.
  pose proof (count_separator sep a b) as Hpos.
  destruct (Split (a +:+ String sep b) sep) as [|x [|y rest]]; simpl in Hlen;
    [lia | lia | eauto].
Qed.

End GoStringsFacts.

(** ** Frontend tokens *)

Module FrontendFacts.
Import Regexp Marathon RegexpFacts GoStringsFacts.

Lemma lang_alternatives rs s :
  lang (foldr Or Void rs) s → ∃ r, r ∈ rs ∧ lang r s.
Proof.
  induction rs as [|r rs IH]; simpl; intros H.
  - inversion H.
  - inversion H; subst.
    + exists r. split; [left | done].
    + destruct IH as (r' & Hin & Hr'); [done|].
      exists r'. split; [by right | done].
Qed.

Lemma lang_expression p ty s :
  lang (expression p ty) s → ∃ a b, s = a +:+ String "/" b.
Proof.
  unfold expression. intros H.
  inversion H as [| |? ? a rest Ha Hrest| | | |]; subst.
  inversion Hrest as [| |? ? sl b Hsl Hb| | | |]; subst.
  apply lang_Byte in Hsl. subst. by exists a, b.
Qed.

(** A recognised token has a slash. *)
Lemma recognized_slash frontend :
  MatchString frontendRegexp frontend = true →
  ∃ a b, frontend = a +:+ String "/" b.
Proof.
  intros H. apply MatchString_lang, lang_alternatives in H as (r & Hin & Hr).
  unfold frontendExpressions in Hin.
  repeat (apply elem_of_cons in Hin as [->|Hin]; [by eapply lang_expression|]).
  by apply elem_of_nil in Hin.
Qed.

(** The two indexings of [frontendDataAndType] are in range. *)
Lemma recognized_Split frontend :
  MatchString frontendRegexp frontend = true →
  ∃ names ty rest, GoStrings.Split frontend "/" = names :: ty :: rest.
Proof.
  intros H. apply recognized_slash in H as (a & b & ->). apply Split_two.
Qed.

Lemma parseFrontends_total frontends : ∀ acc,
  is_Some (parseFrontends acc frontends).
Proof.
  induction frontends as [|f rest IH]; simpl; intros acc; [by eexists|].
  destruct (MatchString frontendRegexp f) eqn:Hm; [|by eexists].
  apply recognized_Split in Hm as (names & ty & tl & ->). simpl. apply IH.
Qed.

Lemma labelFrontends_total app task : is_Some (labelFrontends app task).
Proof.
  unfold labelFrontends. destruct (AppLabels app !! "frontends"); [|by eexists].
  case_match; [apply parseFrontends_total | by eexists].
Qed.

(** The first token that is not recognised decides the whole list. *)
Lemma parseFrontends_first_bad good bad rest : ∀ acc,
  Forall (λ f, MatchString frontendRegexp f = true) good →
  MatchString frontendRegexp bad = false →
  parseFrontends acc (good ++ bad :: rest) = Some (not_recognized bad).
Proof.
  induction good as [|f good IH]; simpl; intros acc Hgood Hbad.
  - by rewrite Hbad.
  - apply Forall_cons in Hgood as [Hf Hgood]. rewrite Hf.
    destruct (recognized_Split f Hf) as (names & ty & tl & ->). simpl.
    by apply IH.
Qed.

End FrontendFacts.

(** ** syncApps *)

Module SyncFacts.
Import Marathon Materialized FrontendFacts.

Lemma alive_flag_from results : ∀ b,
  fold_left (λ alive health, if Bool.eqb (Alive health) false then false else alive)
            results b
  = b && forallb Alive results.
Proof.
  induction results as [|h results IH]; simpl; intros b.
  - by rewrite andb_true_r.
  - rewrite IH. destruct (Alive h), b; simpl; try done.
Qed.

(** The flag computed by the loop is the conjunction of the results. *)
Lemma alive_flag_Forall results :
  alive_flag results = true ↔ Forall (λ h, Alive h = true) results.
Proof.
  unfold alive_flag. rewrite alive_flag_from. simpl.
  rewrite forallb_forall, Forall_forall.
  split; intros H x Hx; apply H; by apply list_elem_of_In.
Qed.

(** The three [continue] statements skip exactly the other tasks. *)
Lemma joinTask_skip app apps task :
  ¬ contributes app task → joinTask app apps task = Some apps.
Proof.
  intros Hno. unfold joinTask.
  destruct (String.eqb (AppId task) (Id app)) eqn:Hid; simpl; [|done].
  apply String.eqb_eq in Hid.
  destruct (Nat.eqb_spec (length (Ports task)) 0) as [|Hports]; [done|].
  destruct (Nat.ltb_spec 0 (length (HealthChecks app))) as [Hhc|Hhc]; simpl.
  - destruct (Nat.eqb_spec (length (HealthCheckResults task)) 0) as [|Hres]; [done|].
    destruct (alive_flag (HealthCheckResults task)) eqn:Halive; simpl; [|done].
    exfalso. apply Hno. split_and!; [done | lia |].
    intros _. split; [lia | by apply alive_flag_Forall].
  - exfalso. apply Hno. split_and!; [done | lia | lia].
Qed.

Lemma joinTask_join app apps task :
  contributes app task →
  joinTask app apps task =
    match apps !! Id app with
    | Some a =>
        slots ← appendPorts task 0 (Ports task) (Tasks a);
        Some (<[Id app := {| Tasks := slots; Frontends := Frontends a;
                             Labels := Labels a; Env := Env a |}]> apps)
    | None => newapp ← newApp app task; Some (<[Id app := newapp]> apps)
    end.
Proof.
  intros (Hid & Hports & Hhealth). unfold joinTask.
  apply String.eqb_eq in Hid. rewrite Hid. simpl.
  destruct (Nat.eqb_spec (length (Ports task)) 0) as [|_]; [lia|].
  destruct (Nat.ltb_spec 0 (length (HealthChecks app))) as [Hhc|Hhc]; simpl; [|done].
  destruct (Hhealth Hhc) as [Hres Halive].
  destruct (Nat.eqb_spec (length (HealthCheckResults task)) 0) as [|_]; [lia|].
  apply alive_flag_Forall in Halive. by rewrite Halive.
Qed.

(** *** Appending to the slots *)

Lemma appendPorts_overflow task ports : ∀ k slots,
  k ≤ length slots → length slots < k + length ports →
  appendPorts task k ports slots = None.
Proof.
  induction ports as [|port ports IH]; simpl; intros k slots Hk Hlen; [lia|].
  destruct (slots !! k) as [slot|] eqn:Hslot; [|done].
  apply lookup_lt_Some in Hslot.
  apply IH; rewrite length_insert; lia.
Qed.

Lemma appendPorts_fits task ports : ∀ k slots,
  k + length ports ≤ length slots →
  appendPorts task k ports slots = Some (appended task k ports slots).
Proof.
  induction ports as [|port ports IH]; simpl; intros k slots Hlen.
  - f_equal. unfold appended. apply list_eq. intros i.
    rewrite list_lookup_imap. destruct (slots !! i); simpl; [|done].
    case_decide; [|done]. by rewrite lookup_nil.
  - destruct (lookup_lt_is_Some_2 slots k) as [slot Hslot]; [lia|].
    rewrite Hslot, IH by (rewrite length_insert; lia).
    f_equal. unfold appended. apply list_eq. intros i.
    rewrite !list_lookup_imap.
    destruct (decide (i = k)) as [->|Hne].
    + rewrite list_lookup_insert_eq by (by eapply lookup_lt_Some).
      rewrite Hslot. simpl.
      rewrite decide_False by lia. rewrite decide_True by lia.
      by rewrite Nat.sub_diag.
    + rewrite list_lookup_insert_ne by done.
      destruct (slots !! i) as [s|]; simpl; [|done].
      destruct (decide (S k ≤ i)) as [Hle|Hgt].
      * rewrite decide_True by lia.
        replace (i - k) with (S (i - S k)) by lia. done.
      * rewrite decide_False by lia. done.
Qed.

Lemma slotsOf_length n tasks : length (slotsOf n tasks) = n.
Proof. unfold slotsOf. by rewrite length_map, length_seq. Qed.

Lemma slotsOf_lookup n tasks i :
  slotsOf n tasks !! i = if decide (i < n) then Some (omap (entryAt i) tasks) else None.
Proof.
  unfold slotsOf. rewrite list_lookup_fmap.
  case_decide as Hi.
  - by rewrite lookup_seq_lt.
  - by rewrite lookup_seq_ge by lia.
Qed.

(** The slots of the entry created by a first task. *)
Lemma slotsOf_first task :
  map (λ port, [hostport task port]) (Ports task)
  = slotsOf (length (Ports task)) [task].
Proof.
  apply list_eq. intros i. rewrite slotsOf_lookup, list_lookup_fmap.
  unfold entryAt. simpl. case_decide as Hi.
  - destruct (lookup_lt_is_Some_2 (Ports task) i) as [port Hport]; [done|].
    by rewrite Hport.
  - by rewrite lookup_ge_None_2 by lia.
Qed.

(** The slots after one more task. *)
Lemma slotsOf_snoc n tasks task :
  appended task 0 (Ports task) (slotsOf n tasks) = slotsOf n (tasks ++ [task]).
Proof.
  apply list_eq. intros i. unfold appended.
  rewrite list_lookup_imap, !slotsOf_lookup.
  destruct (decide (i < n)) as [Hi|Hi]; simpl; [|done].
  rewrite Nat.sub_0_r, omap_app. simpl.
  replace (entryAt i task) with (hostport task <$> Ports task !! i) by done.
  destruct (Ports task !! i); simpl; [done|]. by rewrite app_nil_r.
Qed.

End SyncFacts.

Module SyncInvariant.
Import Marathon Materialized FrontendFacts SyncFacts.

Lemma joinPairs_app ps1 : ∀ ps2 apps,
  joinPairs (ps1 ++ ps2) apps = joinPairs ps1 apps ≫= joinPairs ps2.
Proof.
  induction ps1 as [|[app task] ps1 IH]; simpl; intros ps2 apps; [done|].
  destruct (joinTask app apps task) as [apps'|]; simpl; [apply IH | done].
Qed.

Lemma joinPairs_snoc ps app task apps :
  joinPairs (ps ++ [(app, task)]) apps
  = apps' ← joinPairs ps apps; joinTask app apps' task.
Proof.
  rewrite joinPairs_app. destruct (joinPairs ps apps); simpl; [|done].
  by destruct (joinTask _ _ _).
Qed.

Lemma joinTasks_pairs app tasks : ∀ apps,
  joinTasks app tasks apps = joinPairs (map (pair app) tasks) apps.
Proof.
  induction tasks as [|task tasks IH]; simpl; intros apps; [done|].
  destruct (joinTask app apps task); simpl; [apply IH | done].
Qed.

Lemma joinApps_pairs jsonapps jsontasks : ∀ apps,
  joinApps jsonapps jsontasks apps = joinPairs (pairs jsonapps jsontasks) apps.
Proof.
  induction jsonapps as [|app rest IH]; simpl; intros apps; [done|].
  unfold pairs. simpl. rewrite joinPairs_app, <- joinTasks_pairs.
  destruct (joinTasks app jsontasks apps); simpl; [apply IH | done].
Qed.

(** [syncApps] is the single pass, started on the empty map. *)
Lemma syncApps_pairs jsontasks jsonapps :
  syncApps jsontasks jsonapps = joinPairs (pairs jsonapps jsontasks) ∅.
Proof. apply joinApps_pairs. Qed.

Lemma joined_snoc_yes id ps app task :
  Id app = id → contributes app task →
  joined id (ps ++ [(app, task)]) = joined id ps ++ [(app, task)].
Proof.
  intros Hid Hc. unfold joined. rewrite filter_app. f_equal.
  by rewrite filter_cons_True, filter_nil.
Qed.

Lemma joined_snoc_no id ps app task :
  ¬ (Id app = id ∧ contributes app task) →
  joined id (ps ++ [(app, task)]) = joined id ps.
Proof.
  intros Hno. unfold joined. rewrite filter_app.
  rewrite filter_cons_False, filter_nil by done. apply app_nil_r.
Qed.

Lemma fits_prefix id ps p : fits id (ps ++ [p]) → fits id ps.
Proof.
  destruct p as [app task]. unfold fits.
  destruct (decide (Id app = id ∧ contributes app task)) as [[Hid Hc]|Hno].
  - rewrite joined_snoc_yes by done.
    destruct (joined id ps) as [|[app0 task0] rest]; simpl; [done|].
    rewrite Forall_app. tauto.
  - by rewrite joined_snoc_no.
Qed.

Lemma outcome_skip ps app task (apps : gmap string App) :
  ¬ contributes app task →
  (∀ id, fits id ps) → (∀ id, apps !! id = expected id ps) →
  (∀ id, fits id (ps ++ [(app, task)]))
  ∧ ∀ id, apps !! id = expected id (ps ++ [(app, task)]).
Proof.
  intros Hno Hfits Hm.
  split; intros id; [specialize (Hfits id) | specialize (Hm id)];
    unfold fits, expected in *; rewrite joined_snoc_no by tauto; done.
Qed.

Lemma outcome_other id ps app task :
  Id app ≠ id →
  (fits id (ps ++ [(app, task)]) ↔ fits id ps)
  ∧ expected id (ps ++ [(app, task)]) = expected id ps.
Proof.
  intros Hne. unfold fits, expected. by rewrite joined_snoc_no by tauto.
Qed.

Lemma joinPairs_outcome ps : outcome ps.
Proof.
  induction ps as [|[app task] ps IH] using rev_ind; unfold outcome in *.
  { simpl. split; intros id; [done | by rewrite lookup_empty]. }
  rewrite joinPairs_snoc.
  destruct (joinPairs ps ∅) as [apps|]; simpl.
  2:{ destruct IH as [id Hid]. exists id. intros H. by apply fits_prefix in H. }
  destruct IH as [Hfits Hm].
  destruct (decide (contributes app task)) as [Hc|Hno].
  2:{ rewrite joinTask_skip by done. by apply outcome_skip. }
  rewrite joinTask_join by done. pose proof (Hm (Id app)) as Hhere.
  unfold expected in Hhere.
  destruct (joined (Id app) ps) as [|[app0 task0] rest] eqn:Hj.
  - (* the entry is created *)
    rewrite Hhere. unfold newApp.
    destruct (labelFrontends_total app task) as [fs Hfs]. rewrite Hfs. simpl.
    split; intros id; destruct (decide (Id app = id)) as [<-|Hne].
    + unfold fits. rewrite joined_snoc_yes, Hj by done. simpl. constructor.
    + by apply outcome_other.
    + rewrite lookup_insert_eq. unfold expected.
      rewrite joined_snoc_yes, Hj by done. simpl. rewrite Hfs. simpl.
      by rewrite slotsOf_first.
    + rewrite lookup_insert_ne by done.
      rewrite Hm. symmetry. by apply outcome_other.
  - (* the entry exists *)
    destruct (labelFrontends_total app0 task0) as [fs Hfs].
    rewrite Hfs in Hhere. simpl in Hhere. rewrite Hhere. simpl.
    destruct (decide (length (Ports task) ≤ length (Ports task0))) as [Hle|Hgt].
    + rewrite appendPorts_fits by (rewrite slotsOf_length; simpl; lia). simpl.
      split; intros id; destruct (decide (Id app = id)) as [<-|Hne].
      * specialize (Hfits (Id app)). unfold fits in *.
        rewrite joined_snoc_yes, Hj by done. rewrite Hj in Hfits. simpl.
        apply Forall_app. split; [done|]. by constructor.
      * by apply outcome_other.
      * rewrite lookup_insert_eq. unfold expected.
        rewrite joined_snoc_yes, Hj by done. simpl. rewrite Hfs. simpl.
        rewrite slotsOf_snoc. do 2 f_equal.
        by rewrite fmap_app.
      * rewrite lookup_insert_ne by done.
        rewrite Hm. symmetry. by apply outcome_other.
    + rewrite appendPorts_overflow by (rewrite ?slotsOf_length; simpl; lia). simpl.
      exists (Id app). unfold fits. rewrite joined_snoc_yes, Hj by done. simpl.
      rewrite Forall_app, Forall_singleton. simpl. lia.
Qed.

End SyncInvariant.

(** ** The materialised map *)

Module SyncResults.
Import Regexp Marathon Materialized FrontendFacts SyncFacts SyncInvariant Scenarios Claimed.

Lemma syncApps_lookup jsontasks jsonapps apps id :
  syncApps jsontasks jsonapps = Some apps →
  apps !! id = expected id (pairs jsonapps jsontasks).
Proof.
  rewrite syncApps_pairs. intros H.
  pose proof (joinPairs_outcome (pairs jsonapps jsontasks)) as Ho.
  unfold outcome in Ho. rewrite H in Ho. apply Ho.
Qed.

Lemma syncApps_returns jsontasks jsonapps :
  is_Some (syncApps jsontasks jsonapps) ↔ ∀ id, fits id (pairs jsonapps jsontasks).
Proof.
  rewrite syncApps_pairs.
  pose proof (joinPairs_outcome (pairs jsonapps jsontasks)) as Ho.
  unfold outcome in Ho.
  destruct (joinPairs (pairs jsonapps jsontasks) ∅) as [apps|].
  - split; [intros _; apply Ho | by eexists].
  - destruct Ho as [id Hid]. split; [by intros [? ?] | intros H; by destruct (Hid (H id))].
Qed.

(** An entry of the map, in terms of the first pair that reached it. *)
Lemma syncApps_entry jsontasks jsonapps apps id a :
  syncApps jsontasks jsonapps = Some apps → apps !! id = Some a →
  ∃ app0 task0 rest,
    joined id (pairs jsonapps jsontasks) = (app0, task0) :: rest
    ∧ labelFrontends app0 task0 = Some (Frontends a)
    ∧ Tasks a = slotsOf (length (Ports task0)) (task0 :: rest.*2)
    ∧ Labels a = AppLabels app0
    ∧ Env a = AppEnv app0.
Proof.
  intros Hs Ha. rewrite (syncApps_lookup _ _ _ id Hs) in Ha. unfold expected in Ha.
  destruct (joined id (pairs jsonapps jsontasks)) as [|[app0 task0] rest]; [done|].
  exists app0, task0, rest.
  destruct (labelFrontends app0 task0) as [fs|]; simpl in Ha; [|done].
  injection Ha as <-. done.
Qed.

Lemma elem_of_pairs jsonapps jsontasks app task :
  (app, task) ∈ pairs jsonapps jsontasks ↔ app ∈ jsonapps ∧ task ∈ jsontasks.
Proof.
  unfold pairs. rewrite !list_elem_of_In, in_flat_map. split.
  - intros (app' & Happ & Hin). apply in_map_iff in Hin as (task' & Heq & Htask).
    by injection Heq as -> ->.
  - intros [Happ Htask]. exists app. split; [done|]. apply in_map_iff. by exists task.
Qed.

Lemma elem_of_joined id jsonapps jsontasks app task :
  (app, task) ∈ joined id (pairs jsonapps jsontasks)
  ↔ app ∈ jsonapps ∧ task ∈ jsontasks ∧ Id app = id ∧ contributes app task.
Proof.
  unfold joined. rewrite list_elem_of_filter, elem_of_pairs. simpl. tauto.
Qed.

(** C3. In the map built by [syncApps], the entry [id] exists exactly when
    some (app, task) pair of the input passes the gate for [id], where a
    pair passes if and only if the ids match, the task has at least one
    port and, when the app declares health checks, the task has at least
    one reported result and all of them are alive; and slot [i] of the
    entry lists the i-th host:port of precisely those tasks, in order.  A
    task that fails the gate therefore fills no slot. *)
Theorem syncApps_contributors jsontasks jsonapps apps id :
  syncApps jsontasks jsonapps = Some apps →
  let cs := joined id (pairs jsonapps jsontasks) in
  (∀ app task,
      (app, task) ∈ cs ↔
      app ∈ jsonapps ∧ task ∈ jsontasks ∧ Id app = id
      ∧ AppId task = Id app
      ∧ 0 < length (Ports task)
      ∧ (0 < length (HealthChecks app) →
         0 < length (HealthCheckResults task)
         ∧ Forall (λ h, Alive h = true) (HealthCheckResults task)))
  ∧ Tasks <$> apps !! id =
      match cs with
      | [] => None
      | (_, task0) :: _ => Some (slotsOf (length (Ports task0)) cs.*2)
      end
  ∧ ∀ a index slot,
      apps !! id = Some a → Tasks a !! index = Some slot →
      slot = omap (entryAt index) cs.*2.
Proof.
  intros Hs cs. split_and!.
  - intros app task. apply elem_of_joined.
  - rewrite (syncApps_lookup _ _ _ id Hs). unfold expected. fold cs.
    destruct cs as [|[app0 task0] rest]; [done|].
    by destruct (labelFrontends_total app0 task0) as [fs ->].
  - intros a index slot Ha Hslot.
    destruct (syncApps_entry _ _ _ _ _ Hs Ha) as (app0 & task0 & rest & Hj & _ & Ht & _).
    subst cs. rewrite Hj. simpl. rewrite Ht, slotsOf_lookup in Hslot.
    case_decide; by simplify_eq.
Qed.

(** The health-gated scenario: only the task reported alive fills the slot. *)
Lemma syncApps_contributors_witness :
  syncApps gated_tasks gated_apps
    = Some {[ "/web" := mkApp [["hostA:31001"]] [] ∅ ∅ ]}
  ∧ Tasks <$> ({[ "/web" := mkApp [["hostA:31001"]] [] ∅ ∅ ]} : gmap string App) !! "/web"
    = Some (slotsOf 1 [task_of "/web" "hostA" [31001%Z] [true]]).
Proof.
  split; [vm_compute; reflexivity|].
  refine (proj1 (proj2 (syncApps_contributors gated_tasks gated_apps _ "/web" _))).
  vm_compute; reflexivity.
Defined.

(** *** Shape of the slots *)

Lemma omap_entryAt_length index tasks :
  Forall (λ task, index < length (Ports task)) tasks →
  length (omap (entryAt index) tasks) = length tasks.
Proof.
  induction 1 as [|task tasks Hi _ IH]; [done|].
  destruct (lookup_lt_is_Some_2 (Ports task) index Hi) as [port Hport].
  assert (He : entryAt index task = Some (hostport task port))
    by (unfold entryAt; by rewrite Hport).
  cbn [omap list_omap]. rewrite He. simpl. by rewrite IH.
Qed.

(** C4, as stated, fails: a first task with two ports followed by a task
    with one port leaves two slots of lengths 2 and 1. *)
Lemma ragged_not_rectangular : ¬ rectangular ragged_tasks ragged_apps.
Proof.
  intros H.
  destruct (H {[ "/web" := mkApp [["hostA:31001"; "hostB:31003"]; ["hostA:31002"]] [] ∅ ∅ ]}
              "/web"
              (mkApp [["hostA:31001"; "hostB:31003"]; ["hostA:31002"]] [] ∅ ∅))
    as [(n & _ & Hn) _]; [vm_compute; reflexivity | vm_compute; reflexivity |].
  simpl in Hn. apply Forall_cons in Hn as [H2 Hn]. apply Forall_cons in Hn as [H1 _].
  simpl in *. lia.
Qed.

(** C4, amended. For an entry whose contributing tasks all expose as many
    ports as the first of them, every slot has the same length, the number
    of contributing tasks (at least 1), and the number of slots is the
    number of ports of each contributing task.  Without that condition the
    number of slots is still the number of ports of the first contributing
    task, and at least 1. *)
Theorem syncApps_slots jsontasks jsonapps apps id a :
  syncApps jsontasks jsonapps = Some apps → apps !! id = Some a →
  let cs := joined id (pairs jsonapps jsontasks) in
  0 < length (Tasks a)
  ∧ (∃ p rest, cs = p :: rest ∧ length (Tasks a) = length (Ports p.2))
  ∧ (uniform id (pairs jsonapps jsontasks) →
     0 < length cs
     ∧ Forall (λ slot, length slot = length cs) (Tasks a)
     ∧ Forall (λ p, length (Tasks a) = length (Ports p.2)) cs).
Proof.
  intros Hs Ha cs.
  destruct (syncApps_entry _ _ _ _ _ Hs Ha)
    as (app0 & task0 & rest & Hj & _ & Ht & _).
  assert (Hc : contributes app0 task0).
  { assert (Hin : (app0, task0) ∈ joined id (pairs jsonapps jsontasks))
      by (rewrite Hj; left).
    apply elem_of_joined in Hin. tauto. }
  destruct Hc as (_ & Hports & _).
  assert (Hlen : length (Tasks a) = length (Ports task0))
    by (by rewrite Ht, slotsOf_length).
  subst cs. rewrite Hj. split_and!.
  - lia.
  - by exists (app0, task0), rest.
  - unfold uniform. rewrite Hj. intros Hu. simpl. split_and!.
    + lia.
    + apply Forall_lookup. intros i slot Hslot.
      rewrite Ht, slotsOf_lookup in Hslot. case_decide as Hi; [|done].
      injection Hslot as <-.
      change (length (omap (entryAt i) (task0 :: rest.*2)) = S (length rest)).
      rewrite omap_entryAt_length; [simpl; by rewrite length_fmap|].
      constructor; [done|].
      apply Forall_fmap. eapply Forall_impl; [exact Hu|]. simpl. intros p Hp. lia.
    + constructor; [done|]. eapply Forall_impl; [exact Hu|]. simpl. intros p Hp. lia.
Qed.

(** The two tasks of the happy path fill one slot. *)
Lemma syncApps_slots_witness :
  syncApps happy_tasks happy_apps
    = Some {[ "/web" := mkApp [["hostA:31001"; "hostB:31002"]]
                            (not_recognized "example.com/http")
                            {[ "frontends" := "example.com/http" ]} ∅ ]}
  ∧ 0 < length [["hostA:31001"; "hostB:31002"]].
Proof.
  split; [vm_compute; reflexivity|].
  refine (proj1 (syncApps_slots happy_tasks happy_apps _ "/web"
                   (mkApp [["hostA:31001"; "hostB:31002"]]
                          (not_recognized "example.com/http")
                          {[ "frontends" := "example.com/http" ]} ∅) _ _));
    vm_compute; reflexivity.
Defined.

(** *** The happy path of the specification *)

(** C5, as stated, fails: the dot of [example.com] is outside the
    alphabet of [http] names, so the token is not recognised. *)
Lemma happy_claim_fails : ¬ happy_claim.
Proof.
  intros (labels & env & H).
  assert (Hs : syncApps happy_tasks happy_apps
               = Some {[ "/web" := mkApp [["hostA:31001"; "hostB:31002"]]
                                       (not_recognized "example.com/http")
                                       {[ "frontends" := "example.com/http" ]} ∅ ]})
    by (vm_compute; reflexivity).
  rewrite Hs in H.
  apply (f_equal (λ o : option (gmap string App),
                    m ← o; Frontends <$> m !! "/web")) in H.
  cbn [mbind option_bind] in H. rewrite !lookup_singleton_eq in H. discriminate.
Qed.

(** C5, amended. On that input [syncApps] produces the single entry
    [/web] with the slot [hostA:31001, hostB:31002], the labels of the app,
    and the frontend list
    [{type: error, data: [frontend example.com/http not recognized]}]. *)
Theorem happy_path :
  MatchString frontendRegexp "example.com/http" = false
  ∧ syncApps happy_tasks happy_apps
    = Some {[ "/web" := mkApp [["hostA:31001"; "hostB:31002"]]
                            [mkFrontend "error"
                               ["frontend example.com/http not recognized"]]
                            {[ "frontends" := "example.com/http" ]} ∅ ]}.
Proof. split; vm_compute; reflexivity. Qed.

(** *** Frontends *)

(** C6. An entry whose frontends label splits into more tokens than the
    entry has port slots has exactly the frontend list
    [{type: error, data: [more frontends defined than ports exposed]}],
    and its slots are filled as for any other entry. *)
Theorem too_many_frontends jsontasks jsonapps apps id a label :
  syncApps jsontasks jsonapps = Some apps → apps !! id = Some a →
  Labels a !! "frontends" = Some label →
  length (Tasks a) < length (spaceRegexp_Split label) →
  Frontends a = [mkFrontend "error" ["more frontends defined than ports exposed"]]
  ∧ 0 < length (Tasks a)
  ∧ Tasks a = slotsOf (length (Tasks a)) (joined id (pairs jsonapps jsontasks)).*2.
Proof.
  intros Hs Ha Hlabel Hmany.
  destruct (syncApps_entry _ _ _ _ _ Hs Ha)
    as (app0 & task0 & rest & Hj & Hfs & Ht & Hl & _).
  assert (Hc : contributes app0 task0).
  { assert (Hin : (app0, task0) ∈ joined id (pairs jsonapps jsontasks))
      by (rewrite Hj; left).
    apply elem_of_joined in Hin. tauto. }
  destruct Hc as (_ & Hports & _).
  assert (Hlen : length (Tasks a) = length (Ports task0))
    by (by rewrite Ht, slotsOf_length).
  split_and!.
  - unfold labelFrontends in Hfs. rewrite <- Hl, Hlabel in Hfs.
    destruct (Nat.leb_spec (length (spaceRegexp_Split label)) (length (Ports task0)));
      [lia|]. by injection Hfs as <-.
  - lia.
  - by rewrite Hj, Hlen.
Qed.

(** Two frontends for one port. *)
Lemma too_many_frontends_witness :
  syncApps crowded_tasks crowded_apps
    = Some {[ "/web" := mkApp [["hostA:31001"; "hostB:31002"]] too_many
                            {[ "frontends" := "a.com/http b.com/http" ]} ∅ ]}
  ∧ 1 < length (spaceRegexp_Split "a.com/http b.com/http")
  ∧ too_many = [mkFrontend "error" ["more frontends defined than ports exposed"]].
Proof.
  split; [vm_compute; reflexivity|]. split; [vm_compute; lia|].
  refine (proj1 (too_many_frontends crowded_tasks crowded_apps _ "/web"
                   (mkApp [["hostA:31001"; "hostB:31002"]] too_many
                          {[ "frontends" := "a.com/http b.com/http" ]} ∅)
                   "a.com/http b.com/http" _ _ _ _));
    vm_compute; first [reflexivity | lia].
Defined.

(** C7, as stated, fails: with two ports the first token, [GOOD.com/http],
    is itself not recognised (capitals and dot), and the error names it. *)
Lemma bogus_claim_fails : ¬ bogus_claim.
Proof.
  intros H.
  specialize (H malformed_tasks malformed_apps
    {[ "/web" := mkApp [["hostA:31001"]; ["hostA:31002"]]
                       (not_recognized "GOOD.com/http")
                       {[ "frontends" := "GOOD.com/http bogus" ]} ∅ ]}
    "/web"
    (mkApp [["hostA:31001"]; ["hostA:31002"]] (not_recognized "GOOD.com/http")
           {[ "frontends" := "GOOD.com/http bogus" ]} ∅)).
  assert (Hf : not_recognized "GOOD.com/http"
               = [mkFrontend "error" ["frontend bogus not recognized"]]).
  { apply H; vm_compute; first [reflexivity | lia]. }
  vm_compute in Hf. discriminate.
Qed.

(** C7, amended. When the number of tokens of the frontends label is
    within the port budget, the first token that the grammar does not
    recognise makes the frontend list exactly
    [{type: error, data: [frontend <token> not recognized]}], whatever
    follows it; for the label [GOOD.com/http bogus] that token is
    [GOOD.com/http]. *)
Theorem first_malformed_frontend jsontasks jsonapps apps id a label :
  syncApps jsontasks jsonapps = Some apps → apps !! id = Some a →
  Labels a !! "frontends" = Some label →
  length (spaceRegexp_Split label) ≤ length (Tasks a) →
  (∀ good bad rest,
      spaceRegexp_Split label = good ++ bad :: rest →
      Forall (λ f, MatchString frontendRegexp f = true) good →
      MatchString frontendRegexp bad = false →
      Frontends a
      = [mkFrontend "error" ["frontend " +:+ bad +:+ " not recognized"]])
  ∧ (label = "GOOD.com/http bogus" →
     Frontends a = [mkFrontend "error" ["frontend GOOD.com/http not recognized"]]).
Proof.
  intros Hs Ha Hlabel Hbudget.
  destruct (syncApps_entry _ _ _ _ _ Hs Ha)
    as (app0 & task0 & rest0 & Hj & Hfs & Ht & Hl & _).
  assert (Hlen : length (Tasks a) = length (Ports task0))
    by (by rewrite Ht, slotsOf_length).
  unfold labelFrontends in Hfs. rewrite <- Hl, Hlabel in Hfs.
  destruct (Nat.leb_spec (length (spaceRegexp_Split label)) (length (Ports task0)));
    [|lia].
  assert (Hfirst : ∀ good bad rest,
    spaceRegexp_Split label = good ++ bad :: rest →
    Forall (λ f, MatchString frontendRegexp f = true) good →
    MatchString frontendRegexp bad = false →
    Frontends a = not_recognized bad).
  { intros good bad rest Hsplit Hgood Hbad.
    rewrite Hsplit, parseFrontends_first_bad in Hfs by done. by injection Hfs as <-. }
  split; [exact Hfirst|].
  intros ->. apply (Hfirst [] "GOOD.com/http" ["bogus"]); [|constructor|];
    vm_compute; reflexivity.
Qed.

(** A recognised token followed by one that is not. *)
Lemma first_malformed_frontend_witness :
  syncApps halfgood_tasks halfgood_apps
    = Some {[ "/web" := mkApp [["hostA:31001"]; ["hostA:31002"]]
                            (not_recognized "bogus")
                            {[ "frontends" := "good-com/http bogus" ]} ∅ ]}
  ∧ not_recognized "bogus"
    = [mkFrontend "error" ["frontend " +:+ "bogus" +:+ " not recognized"]].
Proof.
  split; [vm_compute; reflexivity|].
  refine (proj1 (first_malformed_frontend halfgood_tasks halfgood_apps _ "/web"
                   (mkApp [["hostA:31001"]; ["hostA:31002"]] (not_recognized "bogus")
                          {[ "frontends" := "good-com/http bogus" ]} ∅)
                   "good-com/http bogus" _ _ _ _)
                ["good-com/http"] "bogus" [] _ _ _);
    first [ vm_compute; reflexivity
          | vm_compute; lia
          | constructor; [vm_compute; reflexivity | constructor] ].
Defined.

(** *** Indexing the slots *)

(** C10, as stated, fails: a later task with fewer ports than the first
    is indexed in bounds. *)
Lemma fewer_ports_in_bounds : ¬ returns_only_if_uniform.
Proof.
  intros H. specialize (H ragged_tasks ragged_apps).
  assert (Hs : is_Some (syncApps ragged_tasks ragged_apps))
    by (vm_compute; by eexists).
  specialize (H Hs "/web"). vm_compute in H.
  apply Forall_cons in H as [H _]. discriminate.
Qed.

Lemma uniform_fits id ps : uniform id ps → fits id ps.
Proof.
  unfold uniform, fits. destruct (joined id ps) as [|[app0 task0] rest]; [done|].
  intros H. eapply Forall_impl; [exact H|]. simpl. intros p Hp. lia.
Qed.

(** C10, amended. A task that reaches an existing entry appends one
    host:port to slot [index] for each of its port indices, which is in
    bounds exactly when it has at most as many ports as there are slots;
    so [syncApps] returns exactly when no contributing task of an app
    exposes more ports than the first contributing one, in particular
    whenever all expose equally many; and on an input whose second task
    has two ports after a first with one, it panics. *)
Theorem syncApps_in_bounds jsontasks jsonapps :
  (∀ task slots,
      appendPorts task 0 (Ports task) slots
      = if decide (length (Ports task) ≤ length slots)
        then Some (imap (λ index slot,
                           match Ports task !! index with
                           | Some port => slot ++ [hostport task port]
                           | None => slot
                           end) slots)
        else None)
  ∧ (is_Some (syncApps jsontasks jsonapps)
     ↔ ∀ id, fits id (pairs jsonapps jsontasks))
  ∧ ((∀ id, uniform id (pairs jsonapps jsontasks)) →
     is_Some (syncApps jsontasks jsonapps))
  ∧ syncApps overflow_tasks overflow_apps = None.
Proof.
  split_and!.
  - intros task slots. case_decide as Hle.
    + rewrite appendPorts_fits by (simpl; lia). f_equal. unfold appended.
      apply imap_ext. intros i slot _. simpl. by rewrite Nat.sub_0_r.
    + apply appendPorts_overflow; lia.
  - apply syncApps_returns.
  - intros Hu. apply syncApps_returns. intros id. apply uniform_fits, Hu.
  - vm_compute. reflexivity.
Qed.

End SyncResults.

(** ** fetchApps *)

Module FetchFacts.
Import Fetcher.

Lemma getJSON_requests {A} env c url (decode : string → string + A) evs r :
  getJSON env c url decode = (evs, r) → Forall is_request evs.
Proof.
  unfold getJSON. intros H. repeat case_match; simplify_eq;
    repeat constructor; by eexists.
Qed.

Lemma firstHealthy_none endpoints :
  Forall (λ es, Healthy es = false) endpoints → firstHealthy endpoints = "".
Proof. induction 1 as [|es rest Hes _ IH]; simpl; [done|]. by rewrite Hes. Qed.

(** What a call leaves behind: files and globals as they were, requests
    added to the trace, the clock moved by the duration of the phase. *)
Lemma fetchApps_frame env w w1 r :
  fetchApps env w = (w1, r) →
  config w1 = config w ∧ health w1 = health w ∧ files w1 = files w
  ∧ (∃ evs, trace w1 = trace w ++ evs ∧ Forall is_request evs)
  ∧ (clock w1 = clock w ∧ r = inl allDown
     ∨ clock w1 = (clock w + elapsed env Fetch)%Z).
Proof.
  unfold fetchApps. intros H.
  destruct (String.eqb (firstHealthy (health w)) "").
  { simplify_eq. split_and!; try done.
    - exists []. by rewrite app_nil_r.
    - by left. }
  destruct (getJSON env (config w) _ (decodeTasks env)) as [evt rt] eqn:Ht.
  destruct (getJSON env (config w) _ (decodeApps env)) as [eva ra] eqn:Ha.
  apply getJSON_requests in Ht, Ha.
  assert (Hev : Forall is_request (evt ++ eva)) by by apply Forall_app.
  destruct ra, rt; simplify_eq; simpl; split_and!; eauto.
Qed.

Lemma reachable_invariant taskserr appserr s :
  reachable taskserr appserr s →
  match main s with
  | RecvApps => appsGo s = Running ∨ appsGo s = Sending appserr
  | RecvTasks ae => ae = appserr ∧ appsGo s = Finished
  | Returned r => r = verdict appserr taskserr ∧ appsGo s = Finished
  end
  ∧ match tasksGo s with
    | Running => ∀ r, main s ≠ Returned r
    | Sending e => e = taskserr ∧ ∀ r, main s ≠ Returned r
    | Finished => ∃ r, main s = Returned r
    end.
Proof.
  induction 1 as [|s s' _ IH Hstep].
  - simpl. split; [by left | done].
  - destruct Hstep; simpl in *; destruct IH as [IH1 IH2].
    + split; [done|]. split; [done|]. exact IH2.
    + split; [|done]. destruct m; [by right | |]; destruct IH1; naive_solver.
    + split.
      * destruct IH1 as [|IH1]; [done|]. by simplify_eq.
      * destruct t as [|e'|]; [done | split; [apply IH2 | done] |].
        by destruct IH2 as [r ?].
    + destruct IH1 as [-> ->]. destruct IH2 as [-> _]. split; [done|]. by eexists.
Qed.

(** A step always shortens what is left to do. *)
Lemma step_remaining taskserr appserr s s' :
  step taskserr appserr s s' → remaining s' < remaining s.
Proof.
  destruct 1; unfold remaining; simpl;
    repeat match goal with g : goroutine |- _ => destruct g
                      | c : caller |- _ => destruct c end; lia.
Qed.

(** Until the caller has returned, some thread can move. *)
Lemma reachable_progress taskserr appserr s :
  reachable taskserr appserr s →
  (∃ r, main s = Returned r) ∨ ∃ s', step taskserr appserr s s'.
Proof.
  intros Hr. pose proof (reachable_invariant _ _ _ Hr) as [H1 H2].
  destruct s as [m t a]; simpl in *.
  destruct m as [|ae|r]; [| |left; by eexists]; right.
  - destruct H1 as [->| ->]; eexists; constructor.
  - destruct H1 as [-> ->]. destruct t as [|e|].
    + eexists; constructor.
    + eexists; constructor.
    + destruct H2 as [r ?]. done.
Qed.

End FetchFacts.

Module FetchResults.
Import Fetcher FetchFacts Scenarios Claimed.

(** C9, as stated, fails: with both requests failing, the error of the
    apps request is returned. *)
Lemma apps_error_returned : ¬ tasks_error_preferred.
Proof.
  intros H.
  specialize (H unreachable base_world
    [EvRequest (mkRequest "GET" "http://marathon:8080/v2/tasks" "application/json" None)]
    [EvRequest (mkRequest "GET" "http://marathon:8080/v2/apps" "application/json" None)]
    "no route to http://marathon:8080/v2/tasks"
    "no route to http://marathon:8080/v2/apps").
  assert (Hf : (fetchApps unreachable base_world).2
               = inl "no route to http://marathon:8080/v2/tasks").
  { apply H; [vm_compute; discriminate | vm_compute; reflexivity..]. }
  vm_compute in Hf. discriminate.
Qed.

(** C9, amended. With no endpoint marked healthy [fetchApps] fails at once
    with [all endpoints are down] and changes nothing, so it issues no
    request.  Otherwise the caller has returned only in states where both
    goroutines have delivered their result, every state before that can
    move on, and the value returned is the apps error if there is one,
    else the tasks error, else none: when both fail, the apps error. *)
Theorem fetchApps_waits_for_both env w :
  (Forall (λ es, Healthy es = false) (health w) →
   fetchApps env w = (w, inl "all endpoints are down"))
  ∧ (∀ taskserr appserr s r,
        reachable taskserr appserr s → main s = Returned r →
        tasksGo s = Finished ∧ appsGo s = Finished ∧ r = verdict appserr taskserr)
  ∧ (∀ taskserr appserr s,
        reachable taskserr appserr s →
        (∃ r, main s = Returned r)
        ∨ ∃ s', step taskserr appserr s s' ∧ remaining s' < remaining s)
  ∧ (∀ evt eva rt ra,
        firstHealthy (health w) ≠ "" →
        getJSON env (config w) (firstHealthy (health w) +:+ "/v2/tasks") (decodeTasks env)
          = (evt, rt) →
        getJSON env (config w) (firstHealthy (health w) +:+ "/v2/apps") (decodeApps env)
          = (eva, ra) →
        errorOf (fetchApps env w).2 = verdict (errorOf ra) (errorOf rt)
        ∧ trace (fetchApps env w).1 = trace w ++ evt ++ eva)
  ∧ (∀ taskserr appserr, verdict (Some appserr) (Some taskserr) = Some appserr).
Proof.
  split_and!.
  - intros Hdown. unfold fetchApps. by rewrite firstHealthy_none.
  - intros taskserr appserr s r Hr Hm.
    pose proof (reachable_invariant _ _ _ Hr) as [H1 H2]. rewrite Hm in H1, H2.
    destruct H1 as [-> Ha]. split_and!; [|done..].
    destruct (tasksGo s) as [|e|]; [| destruct H2 as [_ H2] | done];
      by destruct (H2 (verdict appserr taskserr)).
  - intros taskserr appserr s Hr.
    destruct (reachable_progress _ _ _ Hr) as [|[s' Hs']]; [by left|].
    right. exists s'. split; [done | by eapply step_remaining].
  - intros evt eva rt ra Hne Ht Ha. unfold fetchApps.
    apply String.eqb_neq in Hne. rewrite Hne, Ht, Ha.
    destruct ra, rt; done.
  - done.
Qed.

End FetchResults.

(** ** writeConf and reload *)

Module NginxFacts.
Import Fetcher FetchFacts Nginx.

Lemma firstFree_spec fs base suffixes tmp :
  firstFree fs base suffixes = Some tmp →
  fs !! tmp = None ∧ ∃ sfx, sfx ∈ suffixes ∧ tmp = base +:+ sfx.
Proof.
  induction suffixes as [|sfx rest IH]; simpl; [done|].
  destruct (fs !! (base +:+ sfx)) eqn:Hfs.
  - intros H. destruct (IH H) as (Hfree & sfx' & Hin & ->).
    split; [done|]. exists sfx'. split; [by right | done].
  - intros [= <-]. split; [done|]. exists sfx. split; [left | done].
Qed.

(** The file of [writeConf] is new, and lies in the default directory. *)
Lemma TempFile_default env fs tmp :
  TempFile env fs "" "nixy" = Some tmp →
  fs !! tmp = None
  ∧ ∃ sfx, sfx ∈ tempSuffixes env ∧ tmp = (tempDir env +:+ "/" +:+ "nixy") +:+ sfx.
Proof. unfold TempFile. simpl. apply firstFree_spec. Qed.

(** [cmd.Run()] returns nil exactly for exit status 0. *)
Lemma runError_None r : runError r = None ↔ ∃ stderr, r = Exited 0 stderr.
Proof.
  split.
  - destruct r as [[| |] stderr|]; simpl; intros H; try done. by exists stderr.
  - by intros [stderr ->].
Qed.

(** Every way [writeConf] can end, with the state it leaves. *)
Lemma writeConf_run env w w' r :
  writeConf env w = (w', r) →
  let cmd := Nginx_cmd (config w) in
  let target := Nginx_config (config w) in
  health w' = health w ∧
  match r with
  | Failed Render _ =>
      config w' = config w
      ∧ clock w' = (clock w + elapsed env Render)%Z
      ∧ (∀ p, is_Some (files w !! p) → files w' !! p = files w !! p)
      ∧ (trace w' = trace w
         ∨ ∃ tmp, TempFile env (files w) "" "nixy" = Some tmp
                  ∧ trace w' = trace w ++ [EvCreate tmp])
  | Crashed =>
      config w' = rendered_at env w ∧ files w' = files w ∧ trace w' = trace w
      ∧ clock w' = (clock w + elapsed env Render)%Z
  | Failed Validate e =>
      ∃ tmp out res,
        TempFile env (files w) "" "nixy" = Some tmp
        ∧ config w' = rendered_at env w
        ∧ files w' = <[tmp := out]> (files w)
        ∧ res = runCmd env cmd ["-c"; tmp; "-t"] (<[tmp := out]> (files w))
        ∧ runError res = Some e
        ∧ trace w' = trace w ++ [EvCreate tmp; EvExec cmd ["-c"; tmp; "-t"] res]
        ∧ clock w' = (clock w + elapsed env Render + elapsed env Validate)%Z
  | Failed Install e =>
      ∃ tmp out stderr,
        TempFile env (files w) "" "nixy" = Some tmp
        ∧ config w' = rendered_at env w
        ∧ files w' = <[tmp := out]> (files w)
        ∧ runCmd env cmd ["-c"; tmp; "-t"] (<[tmp := out]> (files w)) = Exited 0 stderr
        ∧ renameError env tmp target = Some e
        ∧ trace w' = trace w ++ [EvCreate tmp;
                                 EvExec cmd ["-c"; tmp; "-t"] (Exited 0 stderr);
                                 EvRename tmp target (Some e)]
        ∧ clock w' = (clock w + elapsed env Render + elapsed env Validate
                      + elapsed env Install)%Z
  | Done =>
      ∃ tmp out stderr,
        TempFile env (files w) "" "nixy" = Some tmp
        ∧ config w' = rendered_at env w
        ∧ files w' = <[target := out]> (delete tmp (<[tmp := out]> (files w)))
        ∧ runCmd env cmd ["-c"; tmp; "-t"] (<[tmp := out]> (files w)) = Exited 0 stderr
        ∧ trace w' = trace w ++ [EvCreate tmp;
                                 EvExec cmd ["-c"; tmp; "-t"] (Exited 0 stderr);
                                 EvRename tmp target None]
        ∧ clock w' = (clock w + elapsed env Render + elapsed env Validate
                      + elapsed env Install)%Z
  | Failed Fetch _ | Failed Signal _ => False
  end.
Proof.
  intros H. cbv zeta. unfold writeConf in H.
  destruct (files w !! Nginx_template (config w)) as [text|];
    [|simplify_eq; simpl; split_and!; auto].
  destruct (parseTemplate env text) as [err|template];
    [simplify_eq; simpl; split_and!; auto|].
  destruct (template (files w) (config w)) as [output err].
  destruct (TempFile env (files w) "" "nixy") as [tmp|] eqn:Htmp.
  2:{ destruct output, err; simplify_eq; simpl; split_and!; auto. }
  destruct err as [e|].
  { simplify_eq. simpl. split_and!; auto.
    - intros p [x Hp]. rewrite lookup_insert_ne; [done|].
      intros <-. apply TempFile_default in Htmp as [Hfree _]. congruence.
    - right. by exists tmp. }
  unfold checkConf in H. simpl in H.
  set (res := runCmd env (Nginx_cmd (config w)) ["-c"; tmp; "-t"]
                (<[tmp:=output]> (files w))) in *.
  destruct (runError res) as [e|] eqn:Hres.
  { simplify_eq. simpl. split; [done|]. exists tmp, output, res.
    split_and!; auto. by rewrite <- app_assoc. }
  apply runError_None in Hres as [stderr Hres].
  unfold Rename in H. simpl in H. rewrite lookup_insert_eq in H.
  destruct (renameError env tmp (Nginx_config (config w))) as [e|] eqn:Hren;
    simplify_eq; simpl; (split; [done|]); exists tmp, output, stderr;
    rewrite Hres; split_and!; auto; rewrite <- ?app_assoc; simpl; auto; lia.
Qed.

End NginxFacts.

Module ReloadResults.
Import Fetcher FetchFacts Nginx NginxFacts Stamps Scenarios Claimed.

Lemma reloadNginx_run env w w' err :
  reloadNginx env w = (w', err) →
  config w' = config w ∧ files w' = files w
  ∧ clock w' = (clock w + elapsed env Signal)%Z
  ∧ ∃ res, runError res = err
           ∧ trace w' = trace w ++ [EvExec (Nginx_cmd (config w)) ["-s"; "reload"] res].
Proof. unfold reloadNginx. intros [= <- <-]. simpl. split_and!; eauto. Qed.

(** The runs of [reload], one goal per way it can end. *)
Ltac reload_cases H :=
  unfold reload in H;
  let w1 := fresh "w1" in let fr := fresh "fr" in
  let Hfetch := fresh "Hfetch" in
  destruct (fetchApps _ _) as [w1 fr] eqn:Hfetch;
  apply fetchApps_frame in Hfetch
    as (Hc1 & Hh1 & Hf1 & (evs1 & Ht1 & Hreq) & Hk1);
  destruct fr as [err|[jsontasks jsonapps]];
  [ simplify_eq
  | destruct Hk1 as [[_ ?]|Hk1]; [done|];
    destruct (Marathon.syncApps jsontasks jsonapps) as [apps|];
    [ let w3 := fresh "w3" in let r3 := fresh "r3" in
      let Hwrite := fresh "Hwrite" in
      destruct (writeConf _ _) as [w3 r3] eqn:Hwrite;
      apply writeConf_run in Hwrite as [Hh3 Hrun]; simpl in Hrun;
      destruct r3 as [|[] e|];
      [ let w5 := fresh "w5" in let e5 := fresh "e5" in
        let Hsig := fresh "Hsig" in
        destruct (reloadNginx _ _) as [w5 e5] eqn:Hsig;
        apply reloadNginx_run in Hsig as (Hc5 & Hf5 & Hk5 & res5 & Hres5 & Ht5);
        simpl in Hc5, Hf5, Hk5, Ht5;
        destruct e5; simplify_eq
      | done | simplify_eq | simplify_eq | simplify_eq | done | simplify_eq ]
    | simplify_eq ] ].

(** C2, as stated, fails: when the rename fails after a successful
    [nginx -t], [LastConfigValid] keeps its old value. *)
Lemma install_failure_keeps_valid_stamp : ¬ valid_stamped_before_install.
Proof.
  intros H.
  specialize (H (surroundings (Some "invalid cross-device link") 0) base_world
                (reload (surroundings (Some "invalid cross-device link") 0) base_world).1
                "invalid cross-device link").
  assert (Hadv : advanced LastConfigValid base_world
            (reload (surroundings (Some "invalid cross-device link") 0) base_world).1).
  { apply H; [intros p; simpl; lia | vm_compute; intuition discriminate
             | vm_compute; reflexivity]. }
  vm_compute in Hadv. discriminate.
Qed.

(** C2, amended. With a clock that moves during every phase and stamps
    from the past: a successful reload advances all four stamps, in the
    order LastSync < LastConfigRendered < LastConfigValid <
    LastNginxReload; a failed fetch advances none; a failed render
    advances LastSync only; a failed validation or a failed rename
    advances LastSync and LastConfigRendered only ([LastConfigValid] is
    stamped after the rename); a failed reload signal advances all but
    LastNginxReload. *)
Theorem reload_stamps env w w' r :
  (∀ p, 0 < elapsed env p)%Z → in_past w →
  reload env w = (w', r) →
  let u' := LastUpdates (config w') in
  match r with
  | Done =>
      advanced LastSync w w' ∧ advanced LastConfigRendered w w'
      ∧ advanced LastConfigValid w w' ∧ advanced LastNginxReload w w'
      ∧ (LastSync u' < LastConfigRendered u')%Z
      ∧ (LastConfigRendered u' < LastConfigValid u')%Z
      ∧ (LastConfigValid u' < LastNginxReload u')%Z
  | Failed Fetch _ =>
      kept LastSync w w' ∧ kept LastConfigRendered w w'
      ∧ kept LastConfigValid w w' ∧ kept LastNginxReload w w'
  | Failed Render _ =>
      advanced LastSync w w' ∧ kept LastConfigRendered w w'
      ∧ kept LastConfigValid w w' ∧ kept LastNginxReload w w'
  | Failed Validate _ | Failed Install _ =>
      advanced LastSync w w' ∧ advanced LastConfigRendered w w'
      ∧ kept LastConfigValid w w' ∧ kept LastNginxReload w w'
  | Failed Signal _ =>
      advanced LastSync w w' ∧ advanced LastConfigRendered w w'
      ∧ advanced LastConfigValid w w' ∧ kept LastNginxReload w w'
  | Crashed => True
  end.
Proof.
  intros Hpos (Hp1 & Hp2 & Hp3 & Hp4) H. cbv zeta.
  pose proof (Hpos Fetch). pose proof (Hpos Render). pose proof (Hpos Validate).
  pose proof (Hpos Install). pose proof (Hpos Signal).
  unfold advanced, kept.
  reload_cases H.
  all: try done.
  all: repeat match goal with
              | Hr : ∃ _, _ |- _ => destruct Hr as [? Hr]
              | Hr : _ ∧ _ |- _ => destruct Hr as [? Hr]
              end.
  all: unfold rendered_at in *; simpl in *.
  all: repeat match goal with
              | Hc : config _ = _ |- _ => rewrite Hc in *; clear Hc; simpl in *
              | Hc : clock _ = _ |- _ => rewrite Hc in *; clear Hc; simpl in *
              end.
  all: split_and!; lia.
Qed.

(** A reload in which every phase succeeds. *)
Lemma reload_stamps_witness :
  in_past base_world
  ∧ advanced LastSync base_world (reload (surroundings None 0) base_world).1.
Proof.
  split; [unfold in_past; simpl; lia|].
  refine (proj1 (reload_stamps (surroundings None 0) base_world
                   (reload (surroundings None 0) base_world).1 Done _ _ _)).
  - intros p. simpl. lia.
  - unfold in_past. simpl. lia.
  - vm_compute. reflexivity.
Defined.

(** *** The configuration file *)

(** C1, as stated, fails: when [nginx -s reload] fails, the file has
    already been replaced by the candidate. *)
Lemma signal_failure_after_install : ¬ untouched_on_failure.
Proof.
  intros H.
  specialize (H (surroundings None 1) base_world
                (reload (surroundings None 1) base_world).1
                Signal "exit status 1: " "old").
  assert (Hold : files (reload (surroundings None 1) base_world).1
                   !! Nginx_config (config base_world) = Some "old")
    by (apply H; vm_compute; reflexivity).
  vm_compute in Hold. discriminate.
Qed.

(** C1, amended. The file at [nginx_config] is replaced only in runs in
    which [nginx -c <candidate> -t] has exited with status 0 on a newly
    created candidate, before the rename, and then holds the bytes that
    were validated.  When the fetch, the render, the validation or the
    rename fails, the file has its contents of before the attempt; when
    the reload signal fails, it has already been replaced by the validated
    candidate. *)
Theorem reload_config_file env w w' r c :
  files w !! Nginx_config (config w) = Some c →
  reload env w = (w', r) →
  let target := Nginx_config (config w) in
  let cmd := Nginx_cmd (config w) in
  match r with
  | Done | Failed Signal _ =>
      ∃ tmp out stderr pre post,
        files w !! tmp = None
        ∧ runCmd env cmd ["-c"; tmp; "-t"] (<[tmp := out]> (files w)) = Exited 0 stderr
        ∧ files w' !! target = Some out
        ∧ Forall is_request pre
        ∧ trace w' = trace w ++ pre
                     ++ [EvCreate tmp;
                         EvExec cmd ["-c"; tmp; "-t"] (Exited 0 stderr);
                         EvRename tmp target None] ++ post
  | Failed _ _ | Crashed => files w' !! target = Some c
  end.
Proof.
  intros Hc H. cbv zeta. reload_cases H.
  all: try (by rewrite Hf1).
  all: unfold rendered_at in *; simpl in *.
  all: repeat match goal with
              | Hr : ∃ _, _ |- _ => destruct Hr as [? Hr]
              | Hr : _ ∧ _ |- _ => destruct Hr as [? Hr]
              end.
  all: rewrite ?Hc1, ?Hf1 in *.
  all: try match goal with
           | Htmp : TempFile _ _ _ _ = Some ?tmp |- _ =>
               apply TempFile_default in Htmp as [Hfresh _];
               assert (tmp ≠ Nginx_config (config w)) by congruence
           end.
  - (* the signal fails *)
    eexists _, _, _, evs1, _. split_and!; [done | done | | done |].
    + rewrite Hf5. simpl. match goal with Hf : files w3 = _ |- _ => rewrite Hf end.
      apply lookup_insert_eq.
    + rewrite Ht5. match goal with Ht : trace w3 = _ |- _ => rewrite Ht end.
      simpl. rewrite Ht1, <- !app_assoc. done.
  - (* success *)
    eexists _, _, _, evs1, _. split_and!; [done | done | | done |].
    + rewrite Hf5. simpl. match goal with Hf : files w3 = _ |- _ => rewrite Hf end.
      apply lookup_insert_eq.
    + rewrite Ht5. match goal with Ht : trace w3 = _ |- _ => rewrite Ht end.
      simpl. rewrite Ht1, <- !app_assoc. done.
  - (* the render fails *)
    match goal with Hk : ∀ p, is_Some _ → _ |- _ => rewrite Hk by (by eexists) end.
    done.
  - (* the validation fails *)
    match goal with Hf : files w' = _ |- _ => rewrite Hf end.
    by rewrite lookup_insert_ne.
  - (* the rename fails *)
    match goal with Hf : files w' = _ |- _ => rewrite Hf end.
    by rewrite lookup_insert_ne.
  - (* nil file *)
    match goal with Hf : files w' = _ |- _ => by rewrite Hf end.
Qed.

(** A reload whose rename fails leaves the old file. *)
Lemma reload_config_file_witness :
  files base_world !! Nginx_config (config base_world) = Some "old"
  ∧ files (reload (surroundings (Some "invalid cross-device link") 0) base_world).1
      !! "/etc/nginx/nginx.conf" = Some "old".
Proof.
  split; [vm_compute; reflexivity|].
  refine (reload_config_file (surroundings (Some "invalid cross-device link") 0)
            base_world _ (Failed Install "invalid cross-device link") "old" _ _);
    vm_compute; reflexivity.
Defined.

(** *** The temporary file *)





End ReloadResults.

(** ** More on strings and expressions *)

Module TextFacts.
Import GoStrings Helpers GoStringsFacts.

Lemma append_nil_r (s : string) : s +:+ "" = s.
Proof.
  induction s as [|c s IH]; [done|].
  change (String c (s +:+ "") = String c s). by f_equal.
Qed.

Lemma append_assoc' (a b c : string) : (a +:+ b) +:+ c = a +:+ (b +:+ c).
Proof.
  induction a as [|x a IH]; [done|].
  change (String x ((a +:+ b) +:+ c) = String x (a +:+ (b +:+ c))). by f_equal.
Qed.

Lemma append_cons (c : ascii) (a b : string) : String c a +:+ b = String c (a +:+ b).
Proof. done. Qed.

Lemma Split_from_cons sep cur s :
  ∃ x rest, Split_from sep cur s = x :: rest.
Proof.
  revert cur. induction s as [|c s IH]; simpl; intros cur; [by eexists _, _|].
  destruct (Ascii.eqb c sep); [by eexists _, _ | apply IH].
Qed.

Lemma Join_cons x y rest sep :
  Join (x :: y :: rest) sep = x +:+ sep +:+ Join (y :: rest) sep.
Proof. done. Qed.

(** Joining the pieces of a split gives the text back. *)
Lemma Join_Split_from sep s : ∀ cur,
  Join (Split_from sep cur s) (String sep "") = cur +:+ s.
Proof.
  induction s as [|c s IH]; simpl; intros cur; [by rewrite append_nil_r|].
  destruct (Ascii.eqb_spec c sep) as [->|Hne].
  - destruct (Split_from_cons sep "" s) as (x & rest & Hx).
    specialize (IH ""). rewrite Hx in *. rewrite Join_cons, IH. done.
  - rewrite IH, append_assoc'. done.
Qed.

Lemma Split_from_pieces sep s : ∀ cur,
  count sep cur = 0 →
  Forall (λ piece, count sep piece = 0) (Split_from sep cur s).
Proof.
  induction s as [|c s IH]; simpl; intros cur Hcur; [by constructor|].
  destruct (Ascii.eqb c sep) eqn:Hc.
  - constructor; [done|]. by apply IH.
  - apply IH. rewrite count_app. simpl. rewrite Hc. lia.
Qed.

(** A text without the separator is one piece. *)
Lemma Split_from_none sep s : ∀ cur,
  count sep s = 0 → Split_from sep cur s = [cur +:+ s].
Proof.
  induction s as [|c s IH]; simpl; intros cur Hs; [by rewrite append_nil_r|].
  destruct (Ascii.eqb c sep); [lia|].
  rewrite IH by lia. by rewrite append_assoc'.
Qed.

(** The first separator ends the first piece. *)
Lemma Split_from_first sep a b : ∀ cur,
  count sep a = 0 →
  Split_from sep cur (a +:+ String sep b) = (cur +:+ a) :: Split_from sep "" b.
Proof.
  induction a as [|c a IH]; intros cur Ha.
  - simpl. rewrite Ascii.eqb_refl. by rewrite append_nil_r.
  - rewrite append_cons. simpl in *. destruct (Ascii.eqb c sep); [lia|].
    rewrite IH by lia. by rewrite append_assoc'.
Qed.

(** Splitting a join of pieces without separator gives the pieces back. *)
Lemma Split_Join sep ns :
  ns ≠ [] → Forall (λ n, count sep n = 0) ns →
  Split (Join ns (String sep "")) sep = ns.
Proof.
  unfold Split. induction ns as [|n ns IH]; [done|]. intros _ Hns.
  apply Forall_cons in Hns as [Hn Hns]. destruct ns as [|m ns].
  - simpl. by rewrite Split_from_none.
  - rewrite Join_cons. change (String sep "" +:+ ?x) with (String sep x).
    rewrite Split_from_first by done. simpl (_ +:+ _) at 1.
    f_equal. by apply IH.
Qed.

Lemma allBytes_count p sep s :
  p sep = false → allBytes p s = true → count sep s = 0.
Proof.
  intros Hsep. induction s as [|c s IH]; simpl; [done|].
  intros [Hc Hs]%andb_true_iff. rewrite IH by done.
  destruct (Ascii.eqb_spec c sep) as [->|]; [congruence | done].
Qed.

Lemma allBytes_app p a b :
  allBytes p (a +:+ b) = allBytes p a && allBytes p b.
Proof.
  induction a as [|c a IH]; [done|].
  rewrite append_cons. simpl. by rewrite IH, andb_assoc.
Qed.

End TextFacts.

Module RegexpComplete.
Import Regexp RegexpFacts Helpers TextFacts.

Lemma append_eq_nil (a b : string) : a +:+ b = "" → a = "" ∧ b = "".
Proof. destruct a; [done|]. rewrite append_cons. discriminate. Qed.

Lemma lang_nullable r s : lang r s → s = "" → nullable r = true.
Proof.
  induction 1 as [|p c Hc|r1 r2 s1 s2 _ IH1 _ IH2|r1 r2 s _ IH|r1 r2 s _ IH| |];
    simpl; intros Hs; try done.
  - apply append_eq_nil in Hs as [-> ->]. by rewrite IH1, IH2.
  - by rewrite IH.
  - rewrite IH by done. apply orb_true_r.
Qed.

Lemma lang_deriv r s0 :
  lang r s0 → ∀ c s, s0 = String c s → lang (deriv c r) s.
Proof.
  induction 1 as [|p c0 Hc|r1 r2 s1 s2 H1 IH1 H2 IH2|r1 r2 s' _ IH|r1 r2 s' _ IH
                  |r|r s1 s2 H1 IH1 H2 IH2]; simpl; intros c s Hs; try done.
  - injection Hs as -> <-. rewrite Hc. constructor.
  - destruct s1 as [|c1 s1].
    + simpl in Hs. rewrite (lang_nullable _ _ H1 eq_refl).
      apply lang_or_r. by apply IH2.
    + rewrite append_cons in Hs. injection Hs as -> <-.
      assert (lang (Cat (deriv c r1) r2) (s1 +:+ s2))
        by (constructor; [by apply IH1 | done]).
      destruct (nullable r1); [by apply lang_or_l | done].
  - apply lang_or_l. by apply IH.
  - apply lang_or_r. by apply IH.
  - destruct s1 as [|c1 s1].
    + simpl in Hs. by apply IH2.
    + rewrite append_cons in Hs. injection Hs as -> <-.
      constructor; [by apply IH1 | done].
Qed.

(** The matcher accepts exactly the language of the expression. *)
Lemma MatchString_iff r s : MatchString r s = true ↔ lang r s.
Proof.
  split; [apply MatchString_lang|].
  revert r. induction s as [|c s IH]; simpl; intros r H.
  - by eapply lang_nullable.
  - apply IH. by eapply lang_deriv.
Qed.

Lemma lang_Lit ty s : lang (Lit ty) s ↔ s = ty.
Proof.
  split.
  - revert s. induction ty as [|c ty IH]; simpl; intros s H.
    + by inversion H.
    + inversion H as [| |? ? s1 s2 H1 H2| | | |]; subst.
      apply lang_Byte in H1 as ->. apply IH in H2 as ->. done.
  - intros ->. induction ty as [|c ty IH]; simpl; [constructor|].
    change (String c ty) with (String c "" +:+ ty).
    constructor; [|done]. constructor. apply Ascii.eqb_refl.
Qed.

(** Zero or more bytes of a class. *)
Lemma lang_Star_Class p s : lang (Star (Class p)) s ↔ allBytes p s = true.
Proof.
  split.
  - remember (Star (Class p)) as r eqn:Hr. induction 1 as [| | | | |r'|r' s1 s2 H1 _ H2 IH2];
      try discriminate; [done|].
    injection Hr as ->. rewrite allBytes_app, IH2 by done.
    inversion H1; subst. simpl. by rewrite H0.
  - induction s as [|c s IH]; simpl; [constructor|].
    intros [Hc Hs]%andb_true_iff.
    change (String c s) with (String c "" +:+ s).
    constructor; [by constructor | by apply IH].
Qed.

End RegexpComplete.

(** ** The frontend grammar *)

Module GrammarFacts.
Import Regexp Marathon Helpers Grammar GoStrings GoStringsFacts RegexpFacts
       TextFacts RegexpComplete FrontendFacts.

Lemma lang_Plus_Class p s : lang (Plus (Class p)) s ↔ name_of p s.
Proof.
  unfold Plus, name_of. split.
  - inversion 1 as [| |? ? s1 s2 H1 H2| | | |]; subst.
    inversion H1; subst. apply lang_Star_Class in H2.
    rewrite append_cons. split; [done|]. simpl. by rewrite H3.
  - intros [Hne Hall]. destruct s as [|c s]; [done|]. simpl in Hall.
    apply andb_true_iff in Hall as [Hc Hs].
    change (String c s) with (String c "" +:+ s).
    constructor; [by constructor | by apply lang_Star_Class].
Qed.

Lemma lang_tails p s :
  lang (Star (Cat (Byte ",") (Plus (Class p)))) s
  ↔ ∃ ns, Forall (name_of p) ns ∧ s = tails ns.
Proof.
  split.
  - remember (Star (Cat (Byte ",") (Plus (Class p)))) as r eqn:Hr.
    induction 1 as [| | | | |r'|r' s1 s2 H1 _ H2 IH2]; try discriminate.
    + exists []. by split.
    + injection Hr as ->. destruct (IH2 eq_refl) as (ns & Hns & ->).
      inversion H1 as [| |? ? c n Hc Hn| | | |]; subst.
      apply lang_Byte in Hc as ->. apply lang_Plus_Class in Hn.
      exists (n :: ns). split; [by constructor|].
      simpl. by rewrite append_assoc'.
  - intros (ns & Hns & ->). induction Hns as [|n ns Hn _ IH]; simpl; [constructor|].
    rewrite <- append_assoc'. constructor; [|done].
    constructor; [constructor; apply Ascii.eqb_refl | by apply lang_Plus_Class].
Qed.

Lemma Join_tails n ns : Join (n :: ns) "," = n +:+ tails ns.
Proof.
  revert n. induction ns as [|m ns IH]; intros n; [simpl; by rewrite append_nil_r|].
  rewrite Join_cons, IH. simpl. done.
Qed.

Lemma lang_names p s :
  lang (names p) s ↔ ∃ ns, ns ≠ [] ∧ Forall (name_of p) ns ∧ s = Join ns ",".
Proof.
  unfold names. split.
  - inversion 1 as [| |? ? n t Hn Ht| | | |]; subst.
    apply lang_Plus_Class in Hn. apply lang_tails in Ht as (ns & Hns & ->).
    exists (n :: ns). split_and!; [done | by constructor | by rewrite Join_tails].
  - intros (ns & Hne & Hns & ->). destruct ns as [|n ns]; [done|].
    apply Forall_cons in Hns as [Hn Hns]. rewrite Join_tails.
    constructor; [by apply lang_Plus_Class | apply lang_tails; by exists ns].
Qed.

Lemma lang_expression_iff p ty f :
  lang (expression p ty) f ↔ ∃ ns, token_of p ty ns f.
Proof.
  unfold expression, token_of. split.
  - inversion 1 as [| |? ? a rest Ha Hrest| | | |]; subst.
    inversion Hrest as [| |? ? sl b Hsl Hb| | | |]; subst.
    apply lang_Byte in Hsl as ->. apply lang_Lit in Hb as ->.
    apply lang_names in Ha as (ns & Hne & Hns & ->). by exists ns.
  - intros (ns & Hne & Hns & ->).
    constructor; [apply lang_names; by exists ns|].
    constructor; [constructor; apply Ascii.eqb_refl | by apply lang_Lit].
Qed.

Lemma lang_alternatives_iff rs s :
  lang (foldr Or Void rs) s ↔ ∃ r, r ∈ rs ∧ lang r s.
Proof.
  split; [apply lang_alternatives|].
  intros (r & Hin & Hr). induction Hin as [r rs|r r' rs _ IH]; simpl.
  - by apply lang_or_l.
  - by apply lang_or_r, IH.
Qed.

Lemma frontendExpressions_kinds :
  frontendExpressions = map (λ k, expression k.1 k.2) kinds.
Proof. reflexivity. Qed.

(** What every kind excludes from its names and its type. *)
Lemma kinds_separators (p : ascii → bool) ty :
  (p, ty) ∈ kinds → p "/"%char = false ∧ p ","%char = false ∧ count "/" ty = 0.
Proof.
  unfold kinds. intros Hin.
  repeat (apply elem_of_cons in Hin as [[= -> ->]|Hin]; [by vm_compute|]).
  by apply elem_of_nil in Hin.
Qed.

Lemma count_Join sep ns :
  count sep "," = 0 → Forall (λ n, count sep n = 0) ns → count sep (Join ns ",") = 0.
Proof.
  intros Hsep. induction 1 as [|n ns Hn Hns IH]; [done|].
  destruct ns as [|m ns]; [done|].
  rewrite Join_cons, !count_app, Hn, Hsep, IH. done.
Qed.

(** The two splits of a token of the grammar. *)
Lemma token_Split p ty ns f :
  (p, ty) ∈ kinds → token_of p ty ns f →
  Split f "/" = [Join ns ","; ty] ∧ Split (Join ns ",") "," = ns.
Proof.
  intros Hk (Hne & Hns & ->). apply kinds_separators in Hk as (Hslash & Hcomma & Hty).
  assert (Hnames : count "/" (Join ns ",") = 0).
  { apply count_Join; [done|].
    eapply Forall_impl; [exact Hns|]. intros n [_ Hn]. by eapply allBytes_count. }
  split.
  - unfold Split. change ("/" +:+ ty) with (String "/" ty).
    rewrite Split_from_first by done. by rewrite Split_from_none.
  - apply (Split_Join "," ns); [done|].
    eapply Forall_impl; [exact Hns|]. intros n [_ Hn]. by eapply allBytes_count.
Qed.

Lemma recognized_well_formed f :
  MatchString frontendRegexp f = true ↔ well_formed f.
Proof.
  rewrite MatchString_iff. unfold frontendRegexp, well_formed.
  rewrite lang_alternatives_iff, frontendExpressions_kinds. split.
  - intros (r & Hin & Hr). apply list_elem_of_fmap in Hin as ([p ty] & -> & Hin).
    apply lang_expression_iff in Hr as [ns Hns]. by exists p, ty, ns.
  - intros (p & ty & ns & Hin & Hns). exists (expression p ty). split.
    + apply list_elem_of_fmap. by exists (p, ty).
    + apply lang_expression_iff. by exists ns.
Qed.

(** The step of the parsing loop on a recognised token. *)
Lemma parseFrontends_recognized f :
  MatchString frontendRegexp f = true →
  ∃ fr, prints_as f fr
        ∧ ∀ acc rest, parseFrontends acc (f :: rest) = parseFrontends (acc ++ [fr]) rest.
Proof.
  intros Hm. pose proof Hm as (p & ty & ns & Hin & Htok)%recognized_well_formed.
  destruct (token_Split _ _ _ _ Hin Htok) as [Hs1 Hs2].
  exists (mkFrontend ty ns). split; [by exists p|].
  intros acc rest. simpl. rewrite Hm, Hs1. simpl. by rewrite Hs2.
Qed.

Lemma parseFrontends_all_recognized tokens : ∀ acc,
  Forall (λ f, MatchString frontendRegexp f = true) tokens →
  ∃ fs, parseFrontends acc tokens = Some (acc ++ fs) ∧ Forall2 prints_as tokens fs.
Proof.
  induction tokens as [|f tokens IH]; intros acc Hall.
  - exists []. split; [simpl; by rewrite app_nil_r | constructor].
  - apply Forall_cons in Hall as [Hf Hall].
    destruct (parseFrontends_recognized f Hf) as (fr & Hfr & Hstep).
    destruct (IH (acc ++ [fr]) Hall) as (fs & Hfs & Hall2).
    exists (fr :: fs). split; [|by constructor].
    rewrite Hstep, Hfs. by rewrite <- app_assoc.
Qed.

End GrammarFacts.

(** ** More on the materialised map *)

Module SyncExtras.
Import Regexp Marathon Materialized Helpers Grammar GoStrings GoStringsFacts
       FrontendFacts SyncFacts SyncInvariant SyncResults TextFacts GrammarFacts
       Scenarios.

(** X1. A token is recognised by [frontendRegexp] exactly when it is a
    non-empty comma-separated list of non-empty names over the alphabet of
    one of the six types, followed by a slash and that type. *)
Theorem recognized_iff_grammar f :
  MatchString frontendRegexp f = true
  ↔ ∃ (p : ascii → bool) ty ns,
      (p, ty) ∈ [ (dns, "http"); (dns, "http-public"); (dotted, "partner");
                  (dns, "shop-dev"); (dotted, "shop"); (digit, "tcp") ]
      ∧ ns ≠ []
      ∧ Forall (λ n, n ≠ "" ∧ allBytes p n = true) ns
      ∧ f = Join ns "," +:+ "/" +:+ ty.
Proof.
  rewrite recognized_well_formed. unfold well_formed, token_of, name_of, kinds.
  split; intros (p & ty & ns & H); exists p, ty, ns; tauto.
Qed.

(** X2. The indexings [frontendDataAndType[1]] and [frontendDataAndType[0]]
    are always in range: a recognised token has exactly one slash, so it
    splits into two pieces, and parsing a label never panics. *)
Theorem frontend_indexing_in_range :
  (∀ f, MatchString frontendRegexp f = true → length (Split f "/") = 2)
  ∧ (∀ acc frontends, is_Some (parseFrontends acc frontends))
  ∧ (∀ app task, is_Some (labelFrontends app task)).
Proof.
  split_and!.
  - intros f (p & ty & ns & Hin & Htok)%recognized_well_formed.
    destruct (token_Split _ _ _ _ Hin Htok) as [-> _]. done.
  - intros acc frontends. apply parseFrontends_total.
  - apply labelFrontends_total.
Qed.

Lemma first_unrecognized tokens :
  ¬ Forall (λ f, MatchString frontendRegexp f = true) tokens →
  ∃ good bad rest,
    tokens = good ++ bad :: rest
    ∧ Forall (λ f, MatchString frontendRegexp f = true) good
    ∧ MatchString frontendRegexp bad = false.
Proof.
  induction tokens as [|f tokens IH]; intros Hno; [by destruct Hno|].
  destruct (MatchString frontendRegexp f) eqn:Hf.
  - destruct IH as (good & bad & rest & -> & Hgood & Hbad).
    { intros Hall. apply Hno. by constructor. }
    exists (f :: good), bad, rest. split_and!; [done | by constructor | done].
  - exists [], f, tokens. by split_and!.
Qed.

(** The frontends of a new entry, case by case. *)
Lemma labelFrontends_cases app task fs :
  labelFrontends app task = Some fs →
  match AppLabels app !! "frontends" with
  | None => fs = []
  | Some label =>
      let tokens := spaceRegexp_Split label in
      (length tokens ≤ length (Ports task)
       ∧ Forall (λ f, MatchString frontendRegexp f = true) tokens
       ∧ Forall2 prints_as tokens fs)
      ∨ ((length (Ports task) < length tokens
          ∨ ¬ Forall (λ f, MatchString frontendRegexp f = true) tokens)
         ∧ ∃ msg, fs = [error_frontend msg])
  end.
Proof.
  unfold labelFrontends. destruct (AppLabels app !! "frontends") as [label|];
    [|by intros [= <-]].
  cbv zeta. destruct (Nat.leb_spec (length (spaceRegexp_Split label)) (length (Ports task)))
    as [Hle|Hgt].
  - destruct (decide (Forall (λ f, MatchString frontendRegexp f = true)
                             (spaceRegexp_Split label))) as [Hall|Hno].
    + destruct (parseFrontends_all_recognized _ [] Hall) as (fs' & -> & Hfs).
      intros [= <-]. left. split_and!; [exact Hle | exact Hall | exact Hfs].
    + pose proof (first_unrecognized _ Hno) as (good & bad & rest & Heq & Hgood & Hbad).
      rewrite Heq in *.
      rewrite parseFrontends_first_bad by done. intros [= <-].
      right. split; [by right | by eexists].
  - intros [= <-]. right. split; [by left | by eexists].
Qed.

(** X3. The frontend list of an entry is all or nothing.  Without a
    frontends label it is empty.  With one whose tokens are all recognised
    and no more than the slots, it has one frontend per token, in order,
    whose type and names print back to the token.  Otherwise it is a single
    frontend of type [error]; never a partial list. *)
Theorem entry_frontends jsontasks jsonapps apps id a :
  syncApps jsontasks jsonapps = Some apps → apps !! id = Some a →
  all_or_nothing a.
Proof.
  intros Hs Ha. unfold all_or_nothing.
  destruct (syncApps_entry _ _ _ _ _ Hs Ha)
    as (app0 & task0 & rest & Hj & Hfs & Ht & Hl & _).
  assert (Hlen : length (Tasks a) = length (Ports task0))
    by (by rewrite Ht, slotsOf_length).
  apply labelFrontends_cases in Hfs. by rewrite Hl, Hlen.
Qed.

(** Two recognised tokens for two ports. *)
Lemma entry_frontends_witness :
  syncApps halfgood_tasks [app_of "/web" (Some "good-com,www/http 8080/tcp") 0]
  = Some {[ "/web" := mkApp [["hostA:31001"]; ["hostA:31002"]]
                          [mkFrontend "http" ["good-com"; "www"]; mkFrontend "tcp" ["8080"]]
                          {[ "frontends" := "good-com,www/http 8080/tcp" ]} ∅ ]}
  ∧ all_or_nothing
      (mkApp [["hostA:31001"]; ["hostA:31002"]]
             [mkFrontend "http" ["good-com"; "www"]; mkFrontend "tcp" ["8080"]]
             {[ "frontends" := "good-com,www/http 8080/tcp" ]} ∅).
Proof.
  split; [vm_compute; reflexivity|].
  apply (entry_frontends halfgood_tasks
           [app_of "/web" (Some "good-com,www/http 8080/tcp") 0]
           {[ "/web" := mkApp [["hostA:31001"]; ["hostA:31002"]]
                          [mkFrontend "http" ["good-com"; "www"]; mkFrontend "tcp" ["8080"]]
                          {[ "frontends" := "good-com,www/http 8080/tcp" ]} ∅ ]}
           "/web");
    vm_compute; reflexivity.
Defined.

Lemma Split_runs_trailing p front c : ∀ b cur,
  p c = true → "" ∈ Split_runs p b cur (front +:+ String c "").
Proof.
  induction front as [|x front IH]; intros b cur Hc.
  - simpl. rewrite Hc. destruct b; [left | right; left].
  - rewrite append_cons. simpl.
    destruct (p x); [destruct b; [|right] |]; by apply IH.
Qed.

(** X4. A frontends label that is empty, or begins or ends with a
    whitespace byte, always yields a single frontend of type [error]: the
    split on runs of whitespace keeps an empty first or last token, which
    counts against the budget and is not recognised. *)
Theorem padded_label_is_error jsontasks jsonapps apps id a label :
  syncApps jsontasks jsonapps = Some apps → apps !! id = Some a →
  Labels a !! "frontends" = Some label →
  label = ""
  ∨ (∃ c rest, label = String c rest ∧ space c = true)
  ∨ (∃ front c, label = front +:+ String c "" ∧ space c = true) →
  ∃ msg, Frontends a = [mkFrontend "error" [msg]].
Proof.
  intros Hs Ha Hlabel Hpad.
  destruct (syncApps_entry _ _ _ _ _ Hs Ha)
    as (app0 & task0 & rest0 & Hj & Hfs & Ht & Hl & _).
  apply labelFrontends_cases in Hfs. rewrite <- Hl, Hlabel in Hfs.
  destruct Hfs as [(_ & Hall & _)|[_ Hmsg]]; [exfalso | done].
  assert (Hin : "" ∈ spaceRegexp_Split label).
  { unfold spaceRegexp_Split.
    destruct Hpad as [->|[(c & rest & -> & Hc)|(front & c & -> & Hc)]].
    - left.
    - simpl. rewrite Hc. left.
    - by apply Split_runs_trailing. }
  rewrite Forall_forall in Hall. specialize (Hall "" Hin). vm_compute in Hall.
  discriminate.
Qed.

(** A label with a trailing space, within the budget of two ports. *)
Lemma padded_label_is_error_witness :
  syncApps halfgood_tasks [app_of "/web" (Some "good-com/http ") 0]
  = Some {[ "/web" := mkApp [["hostA:31001"]; ["hostA:31002"]] (not_recognized "")
                          {[ "frontends" := "good-com/http " ]} ∅ ]}
  ∧ ∃ msg, not_recognized "" = [mkFrontend "error" [msg]].
Proof.
  split; [vm_compute; reflexivity|].
  apply (padded_label_is_error halfgood_tasks
           [app_of "/web" (Some "good-com/http ") 0]
           {[ "/web" := mkApp [["hostA:31001"]; ["hostA:31002"]] (not_recognized "")
                            {[ "frontends" := "good-com/http " ]} ∅ ]}
           "/web"
           (mkApp [["hostA:31001"]; ["hostA:31002"]] (not_recognized "")
                  {[ "frontends" := "good-com/http " ]} ∅)
           "good-com/http ");
    [vm_compute; reflexivity..|].
  right. right. exists "good-com/http", " "%char. split; reflexivity.
Defined.

(** X5. Every entry of the map comes from the input: its key is the id of
    an app definition and of a task that passes its conditions, its labels
    and environment are those of that definition, unchanged, and its first
    slot starts with the first port of that task.  Tasks of apps that are
    not defined leave no trace. *)
Theorem entry_provenance jsontasks jsonapps apps id a :
  syncApps jsontasks jsonapps = Some apps → apps !! id = Some a →
  ∃ app task port,
    app ∈ jsonapps ∧ task ∈ jsontasks
    ∧ Id app = id ∧ AppId task = id ∧ contributes app task
    ∧ Labels a = AppLabels app ∧ Env a = AppEnv app
    ∧ Ports task !! 0 = Some port
    ∧ Tasks a !! 0 ≫= head = Some (hostport task port).
Proof.
  intros Hs Ha.
  destruct (syncApps_entry _ _ _ _ _ Hs Ha)
    as (app0 & task0 & rest & Hj & _ & Ht & Hl & He).
  assert (Hin : (app0, task0) ∈ joined id (pairs jsonapps jsontasks))
    by (rewrite Hj; left).
  apply elem_of_joined in Hin as (Happ & Htask & Hid & Hc).
  pose proof Hc as (Hid' & Hports & _).
  destruct (lookup_lt_is_Some_2 (Ports task0) 0 Hports) as [port Hport].
  exists app0, task0, port. split_and!; try done; [congruence|].
  rewrite Ht, slotsOf_lookup. rewrite decide_True by done. simpl.
  unfold entryAt at 1. rewrite Hport. done.
Qed.

(** The entry of the health-gated scenario. *)
Lemma entry_provenance_witness :
  syncApps gated_tasks gated_apps = Some {[ "/web" := mkApp [["hostA:31001"]] [] ∅ ∅ ]}
  ∧ ∃ app task port,
      app ∈ gated_apps ∧ task ∈ gated_tasks
      ∧ Id app = "/web" ∧ AppId task = "/web" ∧ contributes app task
      ∧ Labels (mkApp [["hostA:31001"]] [] ∅ ∅) = AppLabels app
      ∧ Env (mkApp [["hostA:31001"]] [] ∅ ∅) = AppEnv app
      ∧ Ports task !! 0 = Some port
      ∧ Tasks (mkApp [["hostA:31001"]] [] ∅ ∅) !! 0 ≫= head = Some (hostport task port).
Proof.
  split; [vm_compute; reflexivity|].
  apply (entry_provenance gated_tasks gated_apps
           {[ "/web" := mkApp [["hostA:31001"]] [] ∅ ∅ ]} "/web");
    vm_compute; reflexivity.
Defined.

(** X6. [syncApps] returns the empty map exactly when no task passes the
    conditions of any app definition; in particular for an empty task list
    or an empty app list. *)
Theorem empty_map_iff jsontasks jsonapps :
  (syncApps jsontasks jsonapps = Some ∅
   ↔ ∀ app task, app ∈ jsonapps → task ∈ jsontasks → ¬ contributes app task)
  ∧ syncApps [] jsonapps = Some ∅
  ∧ syncApps jsontasks [] = Some ∅.
Proof.
  assert (Hmain : syncApps jsontasks jsonapps = Some ∅
    ↔ ∀ app task, app ∈ jsonapps → task ∈ jsontasks → ¬ contributes app task).
  { split.
    - intros Hs app task Happ Htask Hc.
      pose proof (syncApps_lookup _ _ _ (Id app) Hs) as Hl.
      rewrite lookup_empty in Hl. unfold expected in Hl.
      assert (Hin : (app, task) ∈ joined (Id app) (pairs jsonapps jsontasks))
        by (by apply elem_of_joined).
      destruct (joined (Id app) (pairs jsonapps jsontasks)) as [|[app0 task0] rest];
        [by apply elem_of_nil in Hin|].
      by destruct (labelFrontends_total app0 task0) as [fs Hfs]; rewrite Hfs in Hl.
    - intros Hno.
      assert (Hnil : ∀ id, joined id (pairs jsonapps jsontasks) = []).
      { intros id. destruct (joined id (pairs jsonapps jsontasks)) as [|[app task] rest] eqn:Hj;
          [done|].
        assert (Hin : (app, task) ∈ joined id (pairs jsonapps jsontasks))
          by (rewrite Hj; left).
        apply elem_of_joined in Hin as (Happ & Htask & _ & Hc).
        by destruct (Hno app task). }
      destruct (proj2 (syncApps_returns jsontasks jsonapps)) as [apps Hs].
      { intros id. unfold fits. by rewrite Hnil. }
      rewrite Hs. f_equal. apply map_eq. intros id.
      rewrite (syncApps_lookup _ _ _ id Hs), lookup_empty. unfold expected.
      by rewrite Hnil. }
  split_and!; [exact Hmain | | done].
  clear Hmain. unfold syncApps.
  induction jsonapps as [|app rest IH]; simpl; [done | exact IH].
Qed.

Lemma joined_cons_app id app jsonapps jsontasks :
  joined id (pairs (app :: jsonapps) jsontasks)
  = joined id (map (pair app) jsontasks) ++ joined id (pairs jsonapps jsontasks).
Proof. unfold joined, pairs. simpl. by rewrite filter_app. Qed.

Lemma joined_other_app id app jsontasks :
  Id app ≠ id → joined id (map (pair app) jsontasks) = [].
Proof.
  intros Hne. unfold joined. induction jsontasks as [|task rest IH]; simpl; [done|].
  rewrite filter_cons_False by (simpl; tauto). exact IH.
Qed.

Lemma joined_absent id jsonapps jsontasks :
  id ∉ map Id jsonapps → joined id (pairs jsonapps jsontasks) = [].
Proof.
  induction jsonapps as [|app rest IH]; intros Hid; [done|].
  simpl in Hid. apply not_elem_of_cons in Hid as [Hne Hid].
  rewrite joined_cons_app, joined_other_app, IH by done. done.
Qed.

(** With distinct ids, the pairs that reach an entry are those of the one
    app definition with that id, wherever it stands in the list. *)
Lemma joined_of_app id app jsonapps jsontasks :
  NoDup (map Id jsonapps) → app ∈ jsonapps → Id app = id →
  joined id (pairs jsonapps jsontasks) = joined id (map (pair app) jsontasks).
Proof.
  induction jsonapps as [|app' rest IH]; intros Hnd Hin Hid.
  - by apply elem_of_nil in Hin.
  - simpl in Hnd. apply NoDup_cons in Hnd as [Hnotin Hnd]. rewrite joined_cons_app.
    apply elem_of_cons in Hin as [<-|Hin].
    + rewrite (joined_absent id rest) by (by rewrite <- Hid). apply app_nil_r.
    + assert (Id app' ≠ id).
      { intros Heq. apply Hnotin. rewrite Heq, <- Hid.
        apply list_elem_of_fmap. by exists app. }
      rewrite joined_other_app by done. simpl. by apply IH.
Qed.

Lemma joined_permutation id jsonapps1 jsonapps2 jsontasks :
  NoDup (map Id jsonapps1) → jsonapps1 ≡ₚ jsonapps2 →
  joined id (pairs jsonapps1 jsontasks) = joined id (pairs jsonapps2 jsontasks).
Proof.
  intros Hnd Hperm.
  assert (Hnd2 : NoDup (map Id jsonapps2)) by (by rewrite <- Hperm).
  destruct (decide (id ∈ map Id jsonapps1)) as [Hin|Hnotin].
  - apply list_elem_of_fmap in Hin as (app & -> & Hin).
    rewrite (joined_of_app _ app jsonapps1), (joined_of_app _ app jsonapps2);
      try done. by rewrite <- Hperm.
  - rewrite !joined_absent; try done. by rewrite <- Hperm.
Qed.

(** The outcome of the pass is a function of the pairs that reach each
    entry. *)
Lemma joinPairs_joined ps1 ps2 :
  (∀ id, joined id ps1 = joined id ps2) → joinPairs ps1 ∅ = joinPairs ps2 ∅.
Proof.
  intros Heq.
  pose proof (joinPairs_outcome ps1) as H1. pose proof (joinPairs_outcome ps2) as H2.
  unfold outcome in *.
  assert (Hfits : ∀ id, fits id ps1 ↔ fits id ps2)
    by (intros id; unfold fits; by rewrite Heq).
  assert (Hexp : ∀ id, expected id ps1 = expected id ps2)
    by (intros id; unfold expected; by rewrite Heq).
  destruct (joinPairs ps1 ∅) as [m1|], (joinPairs ps2 ∅) as [m2|].
  - f_equal. apply map_eq. intros id.
    destruct H1 as [_ ->], H2 as [_ ->]. apply Hexp.
  - destruct H2 as [id Hid], H1 as [H1 _]. by destruct Hid; apply Hfits.
  - destruct H1 as [id Hid], H2 as [H2 _]. by destruct Hid; apply Hfits.
  - done.
Qed.

(** X22. When the app definitions have distinct ids, the result of
    [syncApps], map or panic, does not depend on the order in which
    Marathon lists them. *)
Theorem syncApps_app_order jsontasks jsonapps1 jsonapps2 :
  NoDup (map Id jsonapps1) → jsonapps1 ≡ₚ jsonapps2 →
  syncApps jsontasks jsonapps1 = syncApps jsontasks jsonapps2.
Proof.
  intros Hnd Hperm. rewrite !syncApps_pairs. apply joinPairs_joined.
  intros id. by apply joined_permutation.
Qed.

(** Two app definitions, in either order. *)
Lemma syncApps_app_order_witness :
  NoDup (map Id [app_of "/web" None 0; app_of "/api" None 0])
  ∧ syncApps happy_tasks [app_of "/web" None 0; app_of "/api" None 0]
    = syncApps happy_tasks [app_of "/api" None 0; app_of "/web" None 0].
Proof.
  assert (Hnd : NoDup (map Id [app_of "/web" None 0; app_of "/api" None 0])).
  { simpl. apply NoDup_cons. split; [|apply NoDup_singleton].
    intros Hin. apply elem_of_cons in Hin as [Hin|Hin]; [discriminate|].
    by apply elem_of_nil in Hin. }
  split; [exact Hnd|].
  apply (syncApps_app_order happy_tasks); [exact Hnd|]. apply Permutation_swap.
Defined.

(** X7. [splitStr] cuts at every single space: joining its pieces with a
    space gives the text back, there is one piece more than there are
    spaces, and no piece contains a space (two spaces in a row give an
    empty piece). *)
Theorem splitStr_roundtrip str :
  Join (splitStr str) " " = str
  ∧ length (splitStr str) = S (count " " str)
  ∧ Forall (λ piece, count " " piece = 0) (splitStr str).
Proof.
  unfold splitStr, Split. split_and!.
  - apply (Join_Split_from " " str "").
  - apply Split_from_length.
  - by apply Split_from_pieces.
Qed.

End SyncExtras.

(** ** Endpoints: health marks, probes, requests *)

Module EndpointExtras.
Import Fetcher FetchFacts Health Scenarios.

Lemma firstHealthy_filter endpoints :
  firstHealthy endpoints
  = match filter (λ es, Healthy es = true) endpoints with
    | [] => ""
    | es :: _ => Endpoint es
    end.
Proof.
  induction endpoints as [|es rest IH]; simpl; [done|].
  destruct (Healthy es) eqn:Hes; simpl.
  - by rewrite filter_cons_True.
  - rewrite filter_cons_False by (rewrite Hes; discriminate). exact IH.
Qed.

Lemma newHealth_from_spec marathon : ∀ h,
  newHealth_from h marathon
  = h ++ map (λ ep, {| Endpoint := ep; Healthy := true; Message := "OK" |}) marathon.
Proof.
  induction marathon as [|ep rest IH]; simpl; intros h; [by rewrite app_nil_r|].
  by rewrite IH, <- app_assoc.
Qed.

Lemma probeEndpoint_Endpoint p c es : Endpoint (probeEndpoint p c es) = Endpoint es.
Proof. unfold probeEndpoint. by repeat case_match. Qed.

Lemma probeEndpoint_Healthy p c es :
  Healthy (probeEndpoint p c es) = true ↔ answers200 p c es.
Proof.
  unfold probeEndpoint, answers200.
  destruct (pingRequestError p _); simpl; [split; [done | by intros [? _]]|].
  destruct (ping p _) as [err|code status]; simpl.
  - split; [done | by intros [_ [? ?]]].
  - destruct (Z.eqb_spec code 200) as [->|Hne]; simpl.
    + split; [intros _; split; [done | by eexists] | done].
    + split; [done | intros [_ [? [= ? ?]]]; done].
Qed.

Lemma tick_Endpoints p c endpoints :
  map Endpoint (endpointHealthTick p c endpoints) = map Endpoint endpoints.
Proof.
  induction endpoints as [|es rest IH]; simpl; [done|].
  by rewrite probeEndpoint_Endpoint, IH.
Qed.

(** X8. The list of endpoints is fixed at startup: [newHealth] lists the
    configured endpoints in order, all marked healthy with message [OK],
    and no number of probe rounds adds, drops, renames or reorders one. *)
Theorem endpoints_fixed (ps : list Prober) c :
  map Endpoint (newHealth c) = Marathon_ c
  ∧ Forall (λ es, Healthy es = true ∧ Message es = "OK") (newHealth c)
  ∧ map Endpoint (endpointHealthRun ps c (newHealth c)) = Marathon_ c.
Proof.
  assert (Hnew : map Endpoint (newHealth c) = Marathon_ c).
  { unfold newHealth. rewrite newHealth_from_spec. simpl.
    rewrite map_map. simpl. apply map_id. }
  split_and!; [done | |].
  - unfold newHealth. rewrite newHealth_from_spec. simpl.
    apply Forall_forall. intros es (ep & <- & _)%list_elem_of_In%in_map_iff. done.
  - rewrite <- Hnew. generalize (newHealth c).
    induction ps as [|p ps IH]; simpl; intros endpoints; [done|].
    by rewrite IH, tick_Endpoints.
Qed.

(** X9. After a round of probes the endpoint chosen by the fetcher is the
    first one, in configured order, whose probe could be sent and was
    answered with status 200, whatever the marks were before; an endpoint
    is marked healthy exactly in that case, with message [OK].  When no
    probe was answered with 200, [fetchApps] fails with
    [all endpoints are down] and issues no request. *)
Theorem failover (p : Prober) env w :
  let endpoints := endpointHealthTick p (config w) (health w) in
  let w' := {| config := config w; health := endpoints; files := files w;
               clock := clock w; trace := trace w |} in
  Forall2 (λ es es', Endpoint es' = Endpoint es
                     ∧ (Healthy es' = true ↔ answers200 p (config w) es)
                     ∧ (Healthy es' = true → Message es' = "OK"))
          (health w) endpoints
  ∧ firstHealthy endpoints
    = match filter (answers200 p (config w)) (health w) with
      | [] => ""
      | es :: _ => Endpoint es
      end
  ∧ (filter (answers200 p (config w)) (health w) = [] →
     fetchApps env w' = (w', inl "all endpoints are down")).
Proof.
  cbv zeta.
  assert (Hfirst : ∀ endpoints,
    firstHealthy (endpointHealthTick p (config w) endpoints)
    = match filter (answers200 p (config w)) endpoints with
      | [] => ""
      | es :: _ => Endpoint es
      end).
  { induction endpoints as [|es rest IH]; simpl; [done|].
    destruct (decide (answers200 p (config w) es)) as [Hok|Hno].
    - rewrite filter_cons_True by done.
      apply probeEndpoint_Healthy in Hok. rewrite Hok. simpl.
      apply probeEndpoint_Endpoint.
    - rewrite filter_cons_False by done.
      destruct (Healthy (probeEndpoint p (config w) es)) eqn:Hh; [|exact IH].
      by apply probeEndpoint_Healthy in Hh. }
  split_and!.
  - induction (health w) as [|es rest IH]; simpl; constructor; [|exact IH].
    split_and!; [apply probeEndpoint_Endpoint | apply probeEndpoint_Healthy|].
    unfold probeEndpoint. repeat case_match; simpl; done.
  - apply Hfirst.
  - intros Hnone. unfold fetchApps. simpl. by rewrite Hfirst, Hnone.
Qed.

(** X10. Every request of [fetchApps] is a GET of [/v2/tasks] or [/v2/apps]
    on the first endpoint marked healthy, asks for JSON, and carries the
    configured credentials exactly when a user name is configured; there
    are at most two requests, and none when no endpoint is chosen. *)
Theorem fetchApps_requests env w w1 r :
  fetchApps env w = (w1, r) →
  ∃ evs,
    trace w1 = trace w ++ evs
    ∧ length evs ≤ 2
    ∧ (firstHealthy (health w) = "" → evs = [])
    ∧ Forall (λ ev, ∃ path,
                (path = "/v2/tasks" ∨ path = "/v2/apps")
                ∧ ev = EvRequest
                    {| Method := "GET";
                       URL := firstHealthy (health w) +:+ path;
                       Accept := "application/json";
                       BasicAuth := if String.eqb (User (config w)) "" then None
                                    else Some (User (config w), Pass (config w)) |})
             evs.
Proof.
  unfold fetchApps. destruct (String.eqb_spec (firstHealthy (health w)) "") as [Hnone|Hsome].
  { intros [= <- <-]. exists []. rewrite app_nil_r. split_and!; [done | simpl; lia | done |].
    constructor. }
  unfold getJSON.
  destruct (newRequestError env (firstHealthy (health w) +:+ "/v2/tasks"));
    destruct (newRequestError env (firstHealthy (health w) +:+ "/v2/apps"));
    repeat case_match; intros ?; simplify_eq; simpl;
    eexists; (split; [reflexivity|]); (split_and!; [simpl; lia | done |]);
    repeat constructor; eexists; (split; [|reflexivity]); auto.
Qed.

(** Both requests fail in transit. *)
Lemma fetchApps_requests_witness :
  ∃ evs,
    trace (fetchApps unreachable base_world).1 = trace base_world ++ evs
    ∧ length evs ≤ 2
    ∧ (firstHealthy (health base_world) = "" → evs = [])
    ∧ Forall (λ ev, ∃ path,
                (path = "/v2/tasks" ∨ path = "/v2/apps")
                ∧ ev = EvRequest
                    {| Method := "GET";
                       URL := firstHealthy (health base_world) +:+ path;
                       Accept := "application/json";
                       BasicAuth := if String.eqb (User (config base_world)) "" then None
                                    else Some (User (config base_world),
                                               Pass (config base_world)) |})
             evs.
Proof.
  apply (fetchApps_requests unreachable base_world _ (fetchApps unreachable base_world).2).
  vm_compute. reflexivity.
Defined.

End EndpointExtras.

(** ** The reload queue, its producers and its consumer *)

Module QueueExtras.
Import Helpers Queue Channel Admin Worker Nginx Scenarios.

Lemma offer_length q :
  length (offer q).1 = if (length q <? capacity)%nat then S (length q) else length q.
Proof.
  unfold offer. destruct (length q <? capacity)%nat; simpl; [|done].
  rewrite length_app. simpl. lia.
Qed.

(** X11. Whatever producers and the consumer do, in any order, the queue
    never holds more than two tokens: an offer to a full queue is dropped
    and a take from an empty one changes nothing. *)
Theorem queue_bounded ops : ∀ q,
  length q ≤ 2 → length (run ops q) ≤ 2.
Proof.
  induction ops as [|[|] ops IH]; simpl; intros q Hq; [done | |].
  - apply IH. rewrite offer_length. unfold capacity.
    destruct (Nat.ltb_spec (length q) 2); lia.
  - destruct q as [|v q]; simpl; apply IH; simpl in *; lia.
Qed.

(** Five offers and a take from the empty queue. *)
Lemma queue_bounded_witness :
  length ([] : list bool) ≤ 2
  ∧ length (run [Offer; Offer; Offer; Take; Offer; Offer] []) ≤ 2.
Proof. split; [simpl; lia|]. apply (queue_bounded _ []). simpl. lia. Defined.

(** While the worker is away from the queue, the read loop of the
    subscriber leaves [min (n + k) 2] tokens in a buffer of [n] after [k]
    lines that begin with [event: ], and warns once for every token that
    did not fit. *)
Lemma readLoop_length lines : ∀ q warnings,
  length q ≤ 2 →
  length (readLoop lines q warnings).1 = Nat.min (length q + eventLines lines) 2
  ∧ (readLoop lines q warnings).2
    = warnings + (length q + eventLines lines - Nat.min (length q + eventLines lines) 2).
Proof.
  unfold eventLines.
  induction lines as [|line lines IH]; intros q warnings Hq.
  - rewrite filter_nil. simpl. split; lia.
  - cbn [readLoop]. destruct (HasPrefix line "event: ") eqn:Hline; cbn [negb].
    + rewrite filter_cons_True by done. rewrite length_cons.
      unfold offer, capacity. destruct (Nat.ltb_spec (length q) 2) as [Hlt|Hge].
      * destruct (IH (q ++ [true]) warnings) as [H1 H2];
          [rewrite length_app; simpl; lia|].
        rewrite H1, H2, length_app. simpl. split; lia.
      * destruct (IH q (S warnings) Hq) as [H1 H2]. rewrite H1, H2. split; lia.
    + rewrite filter_cons_False by (rewrite Hline; discriminate). by apply IH.
Qed.

Lemma eventWorkerRun_length rounds env : ∀ q w,
  length (eventWorkerRun rounds env q w) ≤ Nat.min rounds (length q).
Proof.
  induction rounds as [|n IH]; simpl; intros q w; [lia|].
  unfold eventWorkerTick. destruct q as [|v q]; simpl; [lia|].
  destruct (reload env w) as [w' r]. specialize (IH q w').
  destruct r; simpl; lia.
Qed.

(** X13. Events are coalesced: however many events the subscriber reads
    while the worker is busy, the worker then makes at most two reload
    attempts before it waits for the next event; and it makes at least one
    if a token was pending or an event was read. *)
Theorem burst_reloads rounds env lines q w :
  length q ≤ 2 →
  let q' := (readLoop lines q 0).1 in
  length (eventWorkerRun rounds env q' w) ≤ 2
  ∧ (0 < rounds → 0 < length q + eventLines lines →
     0 < length (eventWorkerRun rounds env q' w)).
Proof.
  intros Hq. cbv zeta.
  destruct (readLoop_length lines q 0 Hq) as [Hlen _].
  revert Hlen. generalize (readLoop lines q 0).1. intros q' Hlen.
  pose proof (eventWorkerRun_length rounds env q' w) as Hle.
  split; [lia|]. intros Hrounds Hpending.
  destruct rounds as [|n]; [lia|]. destruct q' as [|v rest]; [cbn [length] in Hlen; lia|].
  simpl. unfold eventWorkerTick. simpl.
  destruct (reload env w) as [w' r]. destruct r; simpl; lia.
Qed.

(** Three events, then the worker. *)
Lemma burst_reloads_witness :
  length ([] : list bool) ≤ 2
  ∧ length (eventWorkerRun 5 (surroundings None 0)
              (readLoop ["event: a"; "event: b"; "event: c"] [] 0).1 base_world) ≤ 2.
Proof.
  split; [simpl; lia|].
  refine (proj1 (burst_reloads 5 (surroundings None 0)
                   ["event: a"; "event: b"; "event: c"] [] base_world _)).
  simpl. lia.
Defined.

(** *** The queue with the worker at it *)

Lemma send_wf c : wf c → wf (send c).1.
Proof.
  unfold wf, send, offer, capacity. intros [Hlen Hpark].
  destruct (parked c) eqn:Hp; simpl.
  - split; [done|]. intros _. by apply Hpark.
  - destruct (Nat.ltb_spec (length (buffer c)) 2); simpl; split; try done.
    rewrite length_app. simpl. lia.
Qed.

Lemma recv_wf c : wf c → wf (recv c).1.
Proof.
  unfold wf, recv, take, capacity. intros [Hlen Hpark].
  destruct (buffer c) as [|v rest] eqn:Hb; simpl; split; try done.
  simpl in Hlen. lia.
Qed.

(** While the worker is away, the process does to the buffer what
    [readLoop] does to it. *)
Lemma readLoop_away lines : ∀ s,
  parked (queue s) = false →
  buffer (queue (exec (Line <$> lines) s))
    = (readLoop lines (buffer (queue s)) (warned s)).1
  ∧ warned (exec (Line <$> lines) s)
    = (readLoop lines (buffer (queue s)) (warned s)).2
  ∧ started (exec (Line <$> lines) s) = started s
  ∧ parked (queue (exec (Line <$> lines) s)) = false.
Proof.
  induction lines as [|line lines IH]; intros s Hp; [done|].
  rewrite fmap_cons. cbn [exec readLoop act].
  destruct (negb (HasPrefix line "event: ")); [by apply IH|].
  unfold send. rewrite Hp. destruct (offer (buffer (queue s))) as [q [|]].
  - exact (IH (mkProcess (mkChan q false) (started s) (warned s) (refused s)) eq_refl).
  - exact (IH (mkProcess (mkChan q false) (started s) (S (warned s)) (refused s)) eq_refl).
Qed.

Ltac solve_wf :=
  unfold wf, capacity; simpl in *; split; [rewrite ?length_app; simpl; lia | done].

(** One step of the induction over a schedule: the rest of the schedule
    runs from the process [s'] that the step leaves. *)
Ltac follow IH s' :=
  let H1 := fresh "Hwf" in let H2 := fresh "Hsum" in let H3 := fresh "Hle" in
  let H4 := fresh "Hburst" in let Ha := fresh "Hnone" in
  destruct (IH s') as (H1 & H2 & H3 & H4); [solve_wf|];
  unfold room, capacity in *; simpl in *; rewrite ?length_app in *; simpl in *;
  split_and!; [done | lia | lia |];
  intros Ha; try done; destruct (H4 Ha); split; lia.

(** X12. The tokens of the subscriber and of the reload handler, with the
    worker at the queue.  In any order of lines read, handler calls and
    arrivals of the worker at [<-eventqueue]: a parked worker waits on an
    empty buffer of at most two; every token sent is received by the
    worker, waits in the buffer, or was dropped with [queue is full]; and
    no more are dropped than the sends beyond the room there was.  A burst
    without an arrival of the worker drops exactly those, and starts one
    attempt at once if the worker was parked: from the idle process three
    events start an attempt, leave two tokens, and cause no warning. *)
Theorem tokens_accounted acts : ∀ s,
  wf (queue s) →
  wf (queue (exec acts s))
  ∧ started (exec acts s) + length (buffer (queue (exec acts s)))
      + warned (exec acts s) + refused (exec acts s)
    = started s + length (buffer (queue s)) + warned s + refused s + sends acts
  ∧ warned (exec acts s) + refused (exec acts s)
    ≤ warned s + refused s + (sends acts - room (queue s))
  ∧ (arrivals acts = 0 →
     warned (exec acts s) + refused (exec acts s)
       = warned s + refused s + (sends acts - room (queue s))
     ∧ started (exec acts s)
       = started s + (if parked (queue s) then Nat.min (sends acts) 1 else 0)).
Proof.
  induction acts as [|a acts IH]; intros s Hwf.
  { simpl. split_and!; [done | lia | lia |]. intros _. destruct (parked (queue s)); lia. }
  destruct s as [[q p] st wa re]. destruct Hwf as [Hlen Hpark].
  unfold capacity in Hlen. simpl in Hlen, Hpark.
  destruct a as [line| |]; cbn [exec act sends arrivals is_send is_arrival].
  - destruct (HasPrefix line "event: "); cbn [negb];
      [|follow IH (mkProcess (mkChan q p) st wa re)].
    unfold send, offer, capacity. simpl. destruct p.
    + rewrite (Hpark eq_refl) in *.
      follow IH (mkProcess (mkChan [] false) (S st) wa re).
    + destruct (Nat.ltb_spec (length q) 2) as [Hlt|Hge].
      * follow IH (mkProcess (mkChan (q ++ [true]) false) st wa re).
      * follow IH (mkProcess (mkChan q false) st (S wa) re).
  - unfold send, offer, capacity. simpl. destruct p.
    + rewrite (Hpark eq_refl) in *.
      follow IH (mkProcess (mkChan [] false) (S st) wa re).
    + destruct (Nat.ltb_spec (length q) 2) as [Hlt|Hge].
      * follow IH (mkProcess (mkChan (q ++ [true]) false) st wa re).
      * follow IH (mkProcess (mkChan q false) st wa (S re)).
  - simpl. destruct p; [follow IH (mkProcess (mkChan q true) st wa re)|].
    unfold recv, take. simpl. destruct q as [|v rest].
    + follow IH (mkProcess (mkChan [] true) st wa re).
    + follow IH (mkProcess (mkChan rest false) (S st) wa re).
Qed.

(** The idle process and a burst of four lines, three of them events: one
    attempt starts, two tokens wait, nothing is dropped. *)
Lemma tokens_accounted_witness :
  wf (queue idle)
  ∧ wf (queue (exec burst idle))
  ∧ started (exec burst idle) + length (buffer (queue (exec burst idle)))
      + warned (exec burst idle) + refused (exec burst idle)
    = started idle + length (buffer (queue idle)) + warned idle + refused idle
      + sends burst
  ∧ warned (exec burst idle) + refused (exec burst idle)
    ≤ warned idle + refused idle + (sends burst - room (queue idle))
  ∧ (arrivals burst = 0 →
     warned (exec burst idle) + refused (exec burst idle)
       = warned idle + refused idle + (sends burst - room (queue idle))
     ∧ started (exec burst idle)
       = started idle + (if parked (queue idle) then Nat.min (sends burst) 1 else 0)).
Proof.
  split; [split; [simpl; lia | reflexivity]|].
  apply (tokens_accounted burst idle). split; [simpl; lia | reflexivity].
Defined.

(** X14. [nixy_reload] never blocks and always answers with status 202.
    The body is [queued] when the worker was parked at the queue or the
    buffer had room, and [queue is full] otherwise.  A parked worker is
    handed the token and wakes up, the buffer staying empty; with the
    worker away the buffer afterwards holds [min (n + 1) 2] tokens. *)
Theorem nixy_reload_answer c :
  wf c →
  let '(c', rw) := nixy_reload c fresh in
  wroteHeader rw = Some 202%Z
  ∧ written rw = (if decide (parked c = true ∨ length (buffer c) < 2)
                  then "queued" else "queue is full") +:+ String "010" ""
  ∧ wf c'
  ∧ parked c' = false
  ∧ length (buffer c')
    = (if parked c then 0 else Nat.min (S (length (buffer c))) 2).
Proof.
  intros Hwf. pose proof (send_wf _ Hwf) as Hwf'. destruct Hwf as [Hlen Hpark].
  unfold nixy_reload, send, offer, capacity in *.
  destruct (parked c) eqn:Hp.
  - rewrite decide_True by (by left). rewrite (Hpark eq_refl) in *. done.
  - destruct (Nat.ltb_spec (length (buffer c)) 2) as [Hlt|Hge].
    + rewrite decide_True by (by right). cbn [fst buffer parked] in *.
      rewrite length_app. cbn [length]. split_and!; [done | done | done | done | lia].
    + rewrite decide_False by (intros [?|?]; [done | lia]).
      cbn [fst buffer parked] in *. split_and!; [done | done | done | done | lia].
Qed.

(** A reload requested while the worker waits for one. *)
Lemma nixy_reload_answer_witness :
  wf (queue idle)
  ∧ let '(c', rw) := nixy_reload (queue idle) fresh in
    wroteHeader rw = Some 202%Z
    ∧ written rw = (if decide (parked (queue idle) = true
                               ∨ length (buffer (queue idle)) < 2)
                    then "queued" else "queue is full") +:+ String "010" ""
    ∧ wf c'
    ∧ parked c' = false
    ∧ length (buffer c')
      = (if parked (queue idle) then 0
         else Nat.min (S (length (buffer (queue idle)))) 2).
Proof.
  split; [split; [simpl; lia | reflexivity]|].
  apply (nixy_reload_answer (queue idle)). split; [simpl; lia | reflexivity].
Defined.

End QueueExtras.

(** ** The health handler and the template check *)

Module AdminExtras.
Import Helpers Health Queue Admin Nginx NginxFacts Scenarios.

Lemma anyUnhealthy_false endpoints :
  anyUnhealthy endpoints = false ↔ Forall (λ es, Healthy es = true) endpoints.
Proof.
  induction endpoints as [|es rest IH]; simpl; [split; [constructor | done]|].
  destruct (Healthy es) eqn:Hes; simpl.
  - rewrite IH. split; [by constructor | by intros [_ ?]%Forall_cons].
  - split; [done | intros [? _]%Forall_cons; congruence].
Qed.

(** X15. [nixy_health] answers 200 exactly when the template renders, the
    installed configuration file passes [nginx -t] and every endpoint is
    marked healthy, and 500 otherwise.  It runs [nginx -c <nginx_config> -t]
    once, on the installed file, changes no file and no setting, and
    records the two checks in [health.Template] and [health.Config]. *)
Theorem nixy_health_status env marshal w h :
  let res := runCmd env (Nginx_cmd (config w))
               ["-c"; Nginx_config (config w); "-t"] (files w) in
  let '(w', h', rw) := nixy_health env marshal w h fresh in
  files w' = files w ∧ config w' = config w ∧ health w' = health w
  ∧ trace w' = trace w ++ [EvExec (Nginx_cmd (config w))
                                  ["-c"; Nginx_config (config w); "-t"] res]
  ∧ (wroteHeader rw = Some 200%Z ∨ wroteHeader rw = Some 500%Z)
  ∧ (wroteHeader rw = Some 200%Z
     ↔ checkTmpl env w = None
       ∧ (∃ stderr, res = Exited 0 stderr)
       ∧ Forall (λ es, Healthy es = true) (health w))
  ∧ (StatusHealthy (TemplateStatus h') = true ↔ checkTmpl env w = None)
  ∧ (StatusHealthy (ConfigStatus h') = true ↔ ∃ stderr, res = Exited 0 stderr).
Proof.
  cbv zeta. unfold nixy_health, checkConf. simpl.
  pose proof (runError_None (runCmd env (Nginx_cmd (config w))
                               ["-c"; Nginx_config (config w); "-t"] (files w))) as Hrun.
  pose proof (anyUnhealthy_false (health w)) as Hall.
  destruct (checkTmpl env w) as [terr|];
    destruct (runError _) as [cerr|];
    destruct (anyUnhealthy (health w)); simpl;
    split_and!; try done; try (by left); try (by right);
    try (split; [done|]); try (split; [|done]);
    try (intros (? & ? & ?)); try (intros ?); try done;
    try (split_and!; [done | by apply Hrun | by apply Hall]);
    try (by apply Hrun);
    try (by (assert (Some cerr = None) by (by apply Hrun)));
    try (by (assert (true = false) by (by apply Hall))).
Qed.

End AdminExtras.

(** ** More on reload *)

Module ReloadExtras.
Import Fetcher FetchFacts Nginx NginxFacts Stamps Scenarios ReloadResults.

(** Unpacks the facts about a run of [writeConf] and names the file. *)
Ltac unpack_run Hconfig Hfiles :=
  unfold rendered_at in *; simpl in *;
  repeat match goal with
         | Hr : ∃ _, _ |- _ => destruct Hr as [? Hr]
         | Hr : _ ∧ _ |- _ => destruct Hr as [? Hr]
         end;
  rewrite ?Hconfig, ?Hfiles in *;
  try match goal with
      | Htmp : TempFile _ _ _ _ = Some ?tmp |- _ =>
          apply TempFile_default in Htmp as [Hfresh _]
      end.

(** X17. A reload attempt changes no existing file other than the one at
    [nginx_config]: whatever the outcome, every other file that was there
    before (the template among them) has its contents of before. *)
Theorem reload_other_files env w w' r path c :
  reload env w = (w', r) →
  files w !! path = Some c → path ≠ Nginx_config (config w) →
  files w' !! path = Some c.
Proof.
  intros H Hpath Hne. reload_cases H.
  all: try (by rewrite Hf1).
  all: unpack_run Hc1 Hf1.
  all: try (assert (x ≠ path) by congruence).
  - rewrite Hf5. simpl. match goal with Hf : files w3 = _ |- _ => rewrite Hf end.
    rewrite lookup_insert_ne, lookup_delete_ne, lookup_insert_ne by done. done.
  - rewrite Hf5. simpl. match goal with Hf : files w3 = _ |- _ => rewrite Hf end.
    rewrite lookup_insert_ne, lookup_delete_ne, lookup_insert_ne by done. done.
  - match goal with Hk : ∀ p, is_Some _ → _ |- _ => rewrite Hk by (by eexists) end.
    done.
  - match goal with Hf : files w' = _ |- _ => rewrite Hf end.
    by rewrite lookup_insert_ne.
  - match goal with Hf : files w' = _ |- _ => rewrite Hf end.
    by rewrite lookup_insert_ne.
  - match goal with Hf : files w' = _ |- _ => by rewrite Hf end.
Qed.

(** A successful reload leaves the template as it was. *)
Lemma reload_other_files_witness :
  files base_world !! "/etc/nixy/nginx.tmpl" = Some "template"
  ∧ files (reload (surroundings None 0) base_world).1 !! "/etc/nixy/nginx.tmpl"
    = Some "template".
Proof.
  split; [vm_compute; reflexivity|].
  apply (reload_other_files (surroundings None 0) base_world _
           (reload (surroundings None 0) base_world).2 _ "template");
    [vm_compute; reflexivity.. | vm_compute; discriminate].
Defined.

(** X18. The temporary file is never removed by the code.  After a
    successful install (whether or not the reload signal then succeeds) the
    files are those of before with only [nginx_config] replaced, the
    temporary file having been renamed; after a failed validation or a
    failed rename the files are those of before plus the rejected
    candidate, left behind under its temporary name. *)
Theorem reload_leftovers env w w' r c :
  files w !! Nginx_config (config w) = Some c →
  reload env w = (w', r) →
  match r with
  | Done | Failed Signal _ =>
      ∃ out, files w' = <[Nginx_config (config w) := out]> (files w)
  | Failed Validate _ | Failed Install _ =>
      ∃ tmp out, files w !! tmp = None ∧ files w' = <[tmp := out]> (files w)
  | Failed Fetch _ => files w' = files w
  | Failed Render _ | Crashed => True
  end.
Proof.
  intros Hc H. reload_cases H.
  all: try done.
  all: unpack_run Hc1 Hf1.
  - eexists. rewrite Hf5. simpl. match goal with Hf : files w3 = _ |- _ => rewrite Hf end.
    by rewrite delete_insert_id.
  - eexists. rewrite Hf5. simpl. match goal with Hf : files w3 = _ |- _ => rewrite Hf end.
    by rewrite delete_insert_id.
  - by eexists _, _.
  - by eexists _, _.
Qed.

(** A rejected candidate stays in the temporary directory. *)
Lemma reload_leftovers_witness :
  files base_world !! Nginx_config (config base_world) = Some "old"
  ∧ ∃ tmp out,
      files base_world !! tmp = None
      ∧ files (reload (surroundings (Some "invalid cross-device link") 0) base_world).1
        = <[tmp := out]> (files base_world).
Proof.
  split; [vm_compute; reflexivity|].
  apply (reload_leftovers (surroundings (Some "invalid cross-device link") 0)
           base_world _ (Failed Install "invalid cross-device link") "old");
    vm_compute; reflexivity.
Defined.

Lemma requests_only evs ev :
  Forall is_request evs → ev ∈ evs → ∃ req, ev = EvRequest req.
Proof. rewrite Forall_forall. intros H Hin. exact (H ev Hin). Qed.

(** Splits a membership in the new events into its cases. *)
Ltac member Hin Hreq :=
  repeat (first [ apply elem_of_app in Hin as [Hin|Hin]
                | apply elem_of_cons in Hin as [Hin|Hin]
                | apply elem_of_nil in Hin; destruct Hin ]);
  try (destruct (requests_only _ _ Hreq Hin) as [? ?]);
  simplify_eq.

(** Brings the trace of the final state into the form [trace w ++ _]. *)
Ltac new_events Ht1 :=
  repeat match goal with
         | Ht : trace ?x = trace _ ++ _ |- context [trace ?x] =>
             rewrite Ht; clear Ht
         | Ht : trace ?x = trace _ |- context [trace ?x] =>
             rewrite Ht; clear Ht
         end;
  rewrite <- ?app_assoc.

(** X19. The only commands a reload attempt runs are those of
    [nginx_cmd]: [-c <file> -t] on a file that did not exist before the
    attempt, never on the installed configuration, and [-s reload].  The
    reload signal is sent exactly in the runs in which the rename has
    succeeded, and the only rename is that of such a new file onto
    [nginx_config]. *)
Theorem reload_commands env w w' r :
  reload env w = (w', r) →
  ∃ evs,
    trace w' = trace w ++ evs
    ∧ (∀ cmd args res,
          EvExec cmd args res ∈ evs →
          cmd = Nginx_cmd (config w)
          ∧ (args = ["-s"; "reload"]
             ∨ ∃ tmp, args = ["-c"; tmp; "-t"] ∧ files w !! tmp = None))
    ∧ (∀ src dst err,
          EvRename src dst err ∈ evs →
          dst = Nginx_config (config w) ∧ files w !! src = None)
    ∧ ((∃ res, EvExec (Nginx_cmd (config w)) ["-s"; "reload"] res ∈ evs)
       ↔ (∃ src, EvRename src (Nginx_config (config w)) None ∈ evs))
    ∧ ((∃ res, EvExec (Nginx_cmd (config w)) ["-s"; "reload"] res ∈ evs)
       ↔ (r = Done ∨ ∃ e, r = Failed Signal e)).
Proof.
  intros H. reload_cases H.
  all: unpack_run Hc1 Hf1.
  all: repeat match goal with
              | Hc : config _ = _ |- _ => rewrite Hc in *; clear Hc; simpl in *
              end.
  all: try match goal with
           | Hor : _ ∨ _ |- _ => destruct Hor as [Hor|(? & Htmp' & Hor)]
           end.
  all: eexists; split; [new_events Ht1; reflexivity|].
  all: split_and!.
  all: try (intros cmd args res Hin); try (intros src dst err Hin).
  all: try (member Hin Hreq; eauto; fail).
  all: split.
  all: try (intros [res Hin]); try (intros [src Hin]);
       try (intros [?|[? ?]]); simplify_eq.
  all: try (member Hin Hreq; eauto; fail).
  all: try (eexists; rewrite !elem_of_app, !elem_of_cons; eauto 10; fail).
  all: eauto.
Qed.

(** The commands of a successful reload. *)
Lemma reload_commands_witness :
  ∃ evs,
    trace (reload (surroundings None 0) base_world).1 = trace base_world ++ evs
    ∧ (∀ cmd args res,
          EvExec cmd args res ∈ evs →
          cmd = Nginx_cmd (config base_world)
          ∧ (args = ["-s"; "reload"]
             ∨ ∃ tmp, args = ["-c"; tmp; "-t"] ∧ files base_world !! tmp = None))
    ∧ (∀ src dst err,
          EvRename src dst err ∈ evs →
          dst = Nginx_config (config base_world) ∧ files base_world !! src = None)
    ∧ ((∃ res, EvExec (Nginx_cmd (config base_world)) ["-s"; "reload"] res ∈ evs)
       ↔ (∃ src, EvRename src (Nginx_config (config base_world)) None ∈ evs))
    ∧ ((∃ res, EvExec (Nginx_cmd (config base_world)) ["-s"; "reload"] res ∈ evs)
       ↔ ((reload (surroundings None 0) base_world).2 = Done
          ∨ ∃ e, (reload (surroundings None 0) base_world).2 = Failed Signal e)).
Proof.
  apply (reload_commands (surroundings None 0) base_world).
  vm_compute. reflexivity.
Defined.

(** X20. A reload attempt never changes the settings or the health
    marks.  The application map is left as it was when the fetch fails, and
    is replaced by the map built from the fetched tasks and apps in every
    run that got past the fetch, also when rendering, validation, rename or
    signal then fails: the map in memory can be newer than the installed
    file. *)
Theorem reload_settings env w w' r :
  reload env w = (w', r) →
  Nginx_config (config w') = Nginx_config (config w)
  ∧ Nginx_template (config w') = Nginx_template (config w)
  ∧ Nginx_cmd (config w') = Nginx_cmd (config w)
  ∧ Marathon_ (config w') = Marathon_ (config w)
  ∧ User (config w') = User (config w) ∧ Pass (config w') = Pass (config w)
  ∧ health w' = health w
  ∧ match r with
    | Failed Fetch _ => Apps (config w') = Apps (config w)
    | Crashed => True
    | Done | Failed _ _ =>
        ∃ jsontasks jsonapps,
          (fetchApps env w).2 = inr (jsontasks, jsonapps)
          ∧ Marathon.syncApps jsontasks jsonapps = Some (Apps (config w'))
    end.
Proof.
  unfold reload. destruct (fetchApps env w) as [w1 fr] eqn:Hfetch.
  pose proof (fetchApps_frame _ _ _ _ Hfetch) as (Hc1 & Hh1 & _).
  destruct fr as [err|[jsontasks jsonapps]].
  { intros [= <- <-]. by rewrite Hc1, Hh1. }
  destruct (Marathon.syncApps jsontasks jsonapps) as [apps|] eqn:Hsync.
  2:{ intros [= <- <-]. by rewrite Hc1, Hh1. }
  destruct (writeConf env _) as [w3 r3] eqn:Hwrite.
  apply writeConf_run in Hwrite as [Hh3 Hrun]. simpl in Hrun, Hh3.
  assert (Hcfg : r3 ≠ Crashed →
    match r3 with Failed Fetch _ | Failed Signal _ => False | _ => True end
    ∧ Nginx_config (config w3) = Nginx_config (config w)
    ∧ Nginx_template (config w3) = Nginx_template (config w)
    ∧ Nginx_cmd (config w3) = Nginx_cmd (config w)
    ∧ Marathon_ (config w3) = Marathon_ (config w)
    ∧ User (config w3) = User (config w) ∧ Pass (config w3) = Pass (config w)
    ∧ Apps (config w3) = apps).
  { intros Hnc. destruct r3 as [|[] e|]; try done;
      repeat match goal with
             | Hr : ∃ _, _ |- _ => destruct Hr as [? Hr]
             | Hr : _ ∧ _ |- _ => destruct Hr as [? Hr]
             end;
      match goal with Hc : config w3 = _ |- _ => rewrite Hc end;
      unfold rendered_at; simpl; by rewrite Hc1. }
  destruct r3 as [|phase e|].
  - destruct Hcfg as (_ & ? & ? & ? & ? & ? & ? & ?); [done|].
    destruct (reloadNginx env _) as [w5 e5] eqn:Hsig.
    assert (Hh5 : health w5 = health w3).
    { unfold reloadNginx in Hsig. by injection Hsig as <- _. }
    apply reloadNginx_run in Hsig as (Hc5 & _). simpl in Hc5.
    destruct e5; intros [= <- <-]; simpl; rewrite ?Hc5; simpl;
      split_and!; try congruence; exists jsontasks, jsonapps;
      (split; [done | congruence]).
  - destruct Hcfg as (Hph & ? & ? & ? & ? & ? & ? & ?); [done|].
    intros [= <- <-]. split_and!; try congruence.
    destruct phase; try done; exists jsontasks, jsonapps; (split; [done | congruence]).
  - intros [= <- <-]. destruct Hrun as (Hc3 & _). rewrite Hc3. unfold rendered_at. simpl.
    rewrite Hc1. split_and!; try done. congruence.
Qed.

(** The rename fails: the new map is in memory all the same. *)
Lemma reload_settings_witness :
  ∃ jsontasks jsonapps,
    (fetchApps (surroundings (Some "invalid cross-device link") 0) base_world).2
      = inr (jsontasks, jsonapps)
    ∧ Marathon.syncApps jsontasks jsonapps
      = Some (Apps (config (reload (surroundings (Some "invalid cross-device link") 0)
                              base_world).1)).
Proof.
  refine (proj2 (proj2 (proj2 (proj2 (proj2 (proj2 (proj2
    (reload_settings (surroundings (Some "invalid cross-device link") 0) base_world _
       (Failed Install "invalid cross-device link") _)))))))).
  vm_compute. reflexivity.
Defined.



End ReloadExtras.
